(** * Path-wise link utilization: a model of
      [satviz/scripts/visualize_path_wise_utilization.py]

    The script renders one end-to-end path of a satellite network at one
    instant [GEN_TIME].  Its single function [generate_utilization_at_time]
    does four things in sequence, each embedded below under the name the
    source gives it (or, for an inlined loop, the name of what it fills):

    - lines 143-148: read the path-change events into [paths_over_time];
    - lines 149-162: select [SEL_PATH], the path active at [GEN_TIME];
    - lines 166-179: expand the utilization log into [time_wise_util];
    - lines 206-241: walk [SEL_PATH] and emit one coloured link per hop.

    Modelling conventions.
    - Python integers are [Z].
    - Python floats are modelled by exact rationals: utilization values are
      canonical rationals [Qc], and [int / 1000000] is the rational quotient.
      NaN and infinities have no counterpart there.  [round] is Python 3's
      round-half-to-even.
    - Lines 215-227, where a NaN or an infinity changes what the code does,
      are embedded a second time over IEEE 754 doubles, in [Binary64].
    - The four parts take their input after the lexical step ([split],
      [int], [float]): a line of the path file is a pair of a timestamp and a
      node list, a line of the utilization log is a [util_line].  The
      lexical step itself is embedded apart, on the text of the lines.
    - Exceptions are values of [exn]; code that can raise returns [result].
    - The globals [paths_over_time] and [time_wise_util] are threaded
      explicitly.
    - The satellite markers and the orbit links (lines 184-205) depend only
      on the orbit propagation collaborator and are not modelled, nor are
      the calls to [print].  A link of the scene is kept as a record rather
      than as markup text, and the positions that the source reads from
      [sat_objs] for the markup are left out. *)

From Equations Require Import Equations.
From Stdlib Require Import ZArith QArith Qcanon Lqa Lia.
From Stdlib Require Import PrimFloat FloatOps SpecFloat FloatAxioms.
From Stdlib Require Import Ascii.
From stdpp Require Import numbers strings gmap list.

Set Default Proof Using "Type".

(** ** Python values and exceptions *)

Module Py.

(** A dictionary key as it is shown by a [KeyError]. *)
Inductive key :=
| KInt (n : Z)
| KTuple4 (a b c d : Z).

Inductive exn :=
| UnboundLocalError (name : string)
| IndexError
| KeyError (k : key)
| TypeError (msg : string)
| SystemError (msg : string).

Inductive result (A : Type) :=
| Ok (a : A)
| Raise (e : exn).
Arguments Ok {A} a.
Arguments Raise {A} e.

Definition bind {A B} (m : result A) (k : A → result B) : result B :=
  match m with
  | Ok a => k a
  | Raise e => Raise e
  end.

Definition is_ok {A} (m : result A) : bool :=
  match m with Ok _ => true | Raise _ => false end.

(** [raise e]. *)
Definition raise {A} (e : exn) : result A := Raise e.

(** An expression statement: the value is built and dropped, and control
    goes on to the next statement. *)
Definition expr_stmt {A} (a : A) : result () := Ok ().

(** No statement: the branch of an [if] that has no [else]. *)
Definition skip : result () := Ok ().

(** [round(x)] with one argument: the nearest integer, ties to even. *)
Definition round (x : Q) : Z :=
  let n := Qnum x in
  let d := Z.pos (Qden x) in
  let f := (n `div` d)%Z in
  match (2 * (n `mod` d) ?= d)%Z with
  | Lt => f
  | Gt => (f + 1)%Z
  | Eq => if Z.even f then f else (f + 1)%Z
  end.

(** One lower-case hexadecimal digit. *)
Definition hex_digit (n : Z) : string :=
  match n with
  | 0 => "0" | 1 => "1" | 2 => "2" | 3 => "3" | 4 => "4" | 5 => "5"
  | 6 => "6" | 7 => "7" | 8 => "8" | 9 => "9" | 10 => "a" | 11 => "b"
  | 12 => "c" | 13 => "d" | 14 => "e" | _ => "f"
  end%Z.

(** The hexadecimal digits of a positive number, most significant first. *)
Fixpoint hex_pos (fuel : nat) (n : Z) (acc : string) : string :=
  match fuel with
  | O => acc
  | S fuel' =>
      if (n <? 16)%Z then hex_digit n +:+ acc
      else hex_pos fuel' (n `div` 16)%Z (hex_digit (n `mod` 16)%Z +:+ acc)
  end.

Definition hex (n : Z) : string := hex_pos (Z.to_nat (Z.log2 n) + 1) n "".

(** ['%02x' % n]: at least two characters, padded with zeros; a negative
    number prints its sign and is already two characters wide. *)
Definition fmt_02x (n : Z) : string :=
  if (n <? 0)%Z then "-" +:+ hex (- n)
  else if (n <? 16)%Z then "0" +:+ hex n
  else hex n.

End Py.

Import Py.

(** [x ← m; k] and [m;; k] sequence two steps; the first exception raised
    ends the computation. *)
#[global] Instance result_bind : MBind result := λ A B k m, Py.bind m k.
#[global] Instance result_ret : MRet result := @Py.Ok.

(** ** Module constants *)

Definition UTIL_INTERVAL : Z := 100.
Definition GEN_TIME : Z := 10000.

(** [NUM_ORBS] and [NUM_SATS_PER_ORB] are plain integers in the Starlink and
    Kuiper configurations and two-element lists (one entry per shell) in the
    Telesat configuration that the file ships with. *)
Inductive shells :=
| Scalar (n : Z)
| PerShell (l : list Z).

Definition NUM_ORBS : shells := PerShell [27; 40]%Z.
Definition NUM_SATS_PER_ORB : shells := PerShell [13; 33]%Z.

(** ** Data *)

(** A line of the path file: [(int(val[0]), val[1].split("-"))]. *)
Abbreviation path_event := (Z * list Z)%type.

(** A line of the utilization log, fields [val[0]] to [val[4]]. *)
Record util_line := UtilLine {
  src : Z;
  dst : Z;
  start_ns : Z;
  end_ns : Z;
  utilization : Qc
}.

(** [round(t / 1000000)]: nanoseconds to milliseconds. *)
Definition ns_to_ms (t : Z) : Z := Py.round (inject_Z t / inject_Z 1000000).

Definition start_ms (s : util_line) : Z := ns_to_ms (start_ns s).
Definition end_ms (s : util_line) : Z := ns_to_ms (end_ns s).

(** The key of [time_wise_util]: [(src, dst, start, end)]. *)
Abbreviation bucket_key := (Z * Z * Z * Z)%type.

(** ** Lines 143-148: reading the path file *)

(** The [for] loop over the lines.  [nodes] is a local variable of the
    function: it is unbound until the first iteration has run. *)
Fixpoint read_path_lines (lines : list path_event)
    (paths_over_time : list path_event) (nodes : option (list Z))
  : list path_event * option (list Z) :=
  match lines with
  | [] => (paths_over_time, nodes)
  | (val0, val1) :: lines' =>
      read_path_lines lines' (paths_over_time ++ [(val0, val1)]) (Some val1)
  end.

(** The loop followed by [paths_over_time.append((0, nodes))]. *)
Definition build_paths_over_time (lines : list path_event)
    (paths_over_time : list path_event) : result (list path_event) :=
  let '(paths_over_time, nodes) := read_path_lines lines paths_over_time None in
  match nodes with
  | None => raise (UnboundLocalError "nodes")
  | Some nodes => Ok (paths_over_time ++ [(0%Z, nodes)])
  end.

(** ** Lines 149-162: the path active at [GEN_TIME] *)

(** The initial value of [start_next], line 153. *)
Definition FAR_FUTURE : Z := 99999999999.

(** [start_next] for index [i]: the [try] block reads
    [paths_over_time[i + 1]]; when that raises, the bare [except] leaves the
    initial value in place. *)
Definition start_next_at (paths_over_time : list path_event) (i : nat) : Z :=
  match paths_over_time !! (i + 1)%nat with
  | Some (t, _) => ns_to_ms t
  | None => FAR_FUTURE
  end.

(** The [for i in range(len(paths_over_time))] loop with its [break];
    [range] is what is left of the range.  The result is
    [(SEL_PATH_TIME, SEL_PATH)]. *)
Fixpoint select_path (paths_over_time : list path_event) (gen_time : Z)
    (range : list nat) : result (Z * list Z) :=
  match range with
  | [] => Ok (0%Z, [])
  | i :: range' =>
      match paths_over_time !! i with
      | None => raise IndexError
      | Some (t, nodes) =>
          let start_ms := ns_to_ms t in
          let start_next := start_next_at paths_over_time i in
          if bool_decide (gen_time >= start_ms)%Z
             && bool_decide (gen_time < start_next)%Z
          then Ok (t, nodes)
          else select_path paths_over_time gen_time range'
      end
  end.

Definition resolve (paths_over_time : list path_event) (gen_time : Z)
  : result (Z * list Z) :=
  select_path paths_over_time gen_time (seq 0 (length paths_over_time)).

(** ** Lines 166-179: the utilization index *)

(** The [while interval < end_ms - start_ms] loop of one log line. *)
Equations? expand_buckets (time_wise_util : gmap bucket_key Qc)
    (src dst start_ms end_ms : Z) (utilization : Qc) (interval : Z)
  : gmap bucket_key Qc by wf (Z.to_nat (end_ms - start_ms - interval)) lt :=
  expand_buckets time_wise_util src dst start_ms end_ms utilization interval
    with decide (interval < end_ms - start_ms)%Z => {
    | left _ =>
        expand_buckets
          (<[(src, dst, start_ms + interval, start_ms + interval + UTIL_INTERVAL)%Z
             := utilization]> time_wise_util)
          src dst start_ms end_ms utilization (interval + UTIL_INTERVAL)%Z
    | right _ => time_wise_util }.
Proof. unfold UTIL_INTERVAL. lia. Qed.

(** The body of the [for] loop for one line.  The [SystemError] is built in
    an expression statement; there is no [raise] in front of it. *)
Definition ingest_line (time_wise_util : gmap bucket_key Qc) (val : util_line)
  : result (gmap bucket_key Qc) :=
  let start_ms := ns_to_ms (start_ns val) in
  let end_ms := ns_to_ms (end_ns val) in
  (if bool_decide (1 < utilization val)%Qc
   then expr_stmt (SystemError "Util exceeded 1.0")
   else skip);;
  Ok (expand_buckets time_wise_util (src val) (dst val) start_ms end_ms
        (utilization val) 0).

Fixpoint ingest (lines : list util_line) (time_wise_util : gmap bucket_key Qc)
  : result (gmap bucket_key Qc) :=
  match lines with
  | [] => Ok time_wise_util
  | val :: lines' =>
      time_wise_util ← ingest_line time_wise_util val;
      ingest lines' time_wise_util
  end.

(** [time_wise_util[k]]: a missing key raises [KeyError]. *)
Definition getitem (time_wise_util : gmap bucket_key Qc) (k : bucket_key)
  : result Qc :=
  match time_wise_util !! k with
  | Some v => Ok v
  | None =>
      let '(a, b, c, d) := k in raise (KeyError (KTuple4 a b c d))
  end.

(** ** Lines 206-241: the links of the selected path *)

(** The literal [0.5]. *)
Definition half : Qc := Q2Qc (1 # 2).

(** Lines 220-227: width and colour of a link from its utilization. *)
Definition link_width (utilization : Qc) : Qc := 1 + Qc_of_Z 5 * utilization.

(** Lines 222-223, the branch taken when [utilization >= 0.5]:
    [(red_weight, green_weight)]. *)
Definition weights_upper (utilization : Qc) : Z * Z :=
  let red_weight := 255%Z in
  let green_weight :=
    (0 + Py.round (Qc_of_Z 255 * (1 - utilization) / half)%Qc)%Z in
  (red_weight, green_weight).

(** Lines 225-226, the [else] branch. *)
Definition weights_lower (utilization : Qc) : Z * Z :=
  let green_weight := 255%Z in
  let red_weight :=
    (255 - Py.round (Qc_of_Z 255 * (half - utilization) / half)%Qc)%Z in
  (red_weight, green_weight).

Definition weights (utilization : Qc) : Z * Z :=
  if bool_decide (half ≤ utilization)%Qc
  then weights_upper utilization
  else weights_lower utilization.

(** ['%02x%02x%02x' % (red_weight, green_weight, 0)] *)
Definition hex_col (utilization : Qc) : string :=
  let '(red_weight, green_weight) := weights utilization in
  fmt_02x red_weight +:+ fmt_02x green_weight +:+ fmt_02x 0.

(** One polyline of the scene: its two satellites, its width and its
    colour.  (The source prints them into the markup together with the
    positions of the two satellites.) *)
Record link := Link {
  sat1 : Z;
  sat2 : Z;
  width : Qc;
  color : string
}.

(** What the loop builds: the links appended to [viz_string] and the
    [(city name, node)] pairs appended to [OUT_HTML_FILE]. *)
Record scene := Scene {
  viz_links : list link;
  out_html_file : list (string * Z)
}.

Section Render.

Variables (num_orbs num_sats_per_orb : shells).
Variable city_details : gmap Z string.
Variable time_wise_util : gmap bucket_key Qc.
Variable gen_time : Z.
Variable SEL_PATH : list Z.

(** [SEL_PATH[p]] *)
Definition path_at (p : nat) : result Z :=
  match SEL_PATH !! p with
  | Some node => Ok node
  | None => raise IndexError
  end.

(** [node - NUM_ORBS*NUM_SATS_PER_ORB]: two lists cannot be multiplied; an
    integer times a list is a list, which cannot be subtracted from an
    integer. *)
Definition ground_station_id (node : Z) : result Z :=
  match num_orbs, num_sats_per_orb with
  | Scalar a, Scalar b => Ok (node - a * b)%Z
  | PerShell _, PerShell _ =>
      raise (TypeError "can't multiply sequence by non-int of type 'list'")
  | _, _ =>
      raise (TypeError "unsupported operand type(s) for -: 'int' and 'list'")
  end.

(** [city_details[GS]["name"]] *)
Definition city_name (GS : Z) : result string :=
  match city_details !! GS with
  | Some name => Ok name
  | None => raise (KeyError (KInt GS))
  end.

(** Lines 215-219: the larger of the two directions. *)
Definition hop_utilization (sat1 sat2 : Z) : result Qc :=
  util_1 ← getitem time_wise_util
             (sat1, sat2, gen_time - UTIL_INTERVAL, gen_time)%Z;
  util_2 ← getitem time_wise_util
             (sat2, sat1, gen_time - UTIL_INTERVAL, gen_time)%Z;
  let utilization := util_1 in
  let utilization :=
    if bool_decide (utilization < util_2)%Qc then util_2 else utilization in
  Ok utilization.

(** The body of [for p in range(len(SEL_PATH))]. *)
Definition render_step (p : nat) (sc : scene) : result scene :=
  let len := Z.of_nat (length SEL_PATH) in
  sc ← (if bool_decide (p = 0%nat) || bool_decide (Z.of_nat p = len - 1)%Z
        then
          node ← path_at p;
          GS ← ground_station_id node;
          name ← city_name GS;
          Ok (Scene (viz_links sc) (out_html_file sc ++ [(name, node)]))
        else Ok sc);
  if bool_decide (0 < Z.of_nat p)%Z && bool_decide (Z.of_nat p < len - 2)%Z
  then
    sat1 ← path_at p;
    sat2 ← path_at (p + 1);
    utilization ← hop_utilization sat1 sat2;
    Ok (Scene
          (viz_links sc
             ++ [Link sat1 sat2 (link_width utilization) (hex_col utilization)])
          (out_html_file sc))
  else Ok sc.

Fixpoint render_loop (range : list nat) (sc : scene) : result scene :=
  match range with
  | [] => Ok sc
  | p :: range' =>
      sc ← render_step p sc;
      render_loop range' sc
  end.

Definition render : result scene :=
  render_loop (seq 0 (length SEL_PATH)) (Scene [] []).

End Render.

(** ** The whole function *)

Definition generate_utilization_at_time
    (path_file : list path_event) (IN_UTIL_FILE : list util_line)
    (num_orbs num_sats_per_orb : shells) (city_details : gmap Z string)
    (gen_time : Z) : result scene :=
  paths_over_time ← build_paths_over_time path_file [];
  '(SEL_PATH_TIME, SEL_PATH) ← resolve paths_over_time gen_time;
  time_wise_util ← ingest IN_UTIL_FILE ∅;
  render num_orbs num_sats_per_orb city_details time_wise_util gen_time SEL_PATH.

(** ** Lines 143-147 and 166-173: the lexical step

    The two loops split each line of their file into fields before they use
    it.  [int] and [float] are Python's: they are parameters of this part,
    [py_int s] being [Ok n] when [int(s)] returns [n] and [Raise e] when it
    raises [e].  A file is the list of its lines, each without its final
    newline. *)

(** [s.split(sep)] for a separator of one character: the fields between the
    occurrences of [sep], of which there is always at least one. *)
Fixpoint split (sep : ascii) (s : string) : list string :=
  match s with
  | EmptyString => [EmptyString]
  | String c s' =>
      if Ascii.eqb c sep then EmptyString :: split sep s'
      else
        match split sep s' with
        | field :: fields => String c field :: fields
        | [] => [String c EmptyString]
        end
  end.

(** [val[i]] *)
Definition field (val : list string) (i : nat) : result string :=
  match val !! i with
  | Some f => Ok f
  | None => raise IndexError
  end.

Section Lexer.

Variable py_int : string → result Z.
Variable py_float : string → result Qc.

(** Lines 145-147: [val[1]] is read and split first, then [val[0]] is
    converted.  The nodes stay strings until line 208 or 213 converts one. *)
Definition lex_path_line (line : string) : result (Z * list string) :=
  let val := split ","%char line in
  val1 ← field val 1;
  let nodes := split "-"%char val1 in
  val0 ← field val 0;
  time ← py_int val0;
  Ok (time, nodes).

(** Lines 168-173. *)
Definition lex_util_line (line : string) : result util_line :=
  let val := split ","%char line in
  src ← field val 0 ≫= py_int;
  dst ← field val 1 ≫= py_int;
  start_ns ← field val 2 ≫= py_int;
  end_ns ← field val 3 ≫= py_int;
  utilization ← field val 4 ≫= py_float;
  Ok (UtilLine src dst start_ns end_ns utilization).

(** Lines 166-179 on the text of the log: each line is split, converted and
    expanded before the next one is looked at. *)
Fixpoint read_util_file (lines : list string)
    (time_wise_util : gmap bucket_key Qc) : result (gmap bucket_key Qc) :=
  match lines with
  | [] => Ok time_wise_util
  | line :: lines' =>
      val ← lex_util_line line;
      time_wise_util ← ingest_line time_wise_util val;
      read_util_file lines' time_wise_util
  end.

(** Lines 143-148 on the text of the path file. *)
Fixpoint read_path_file (lines : list string)
    (paths_over_time : list (Z * list string)) (nodes : option (list string))
  : result (list (Z * list string)) :=
  match lines with
  | [] =>
      match nodes with
      | None => raise (UnboundLocalError "nodes")
      | Some nodes => Ok (paths_over_time ++ [(0%Z, nodes)])
      end
  | line :: lines' =>
      '(time, nodes) ← lex_path_line line;
      read_path_file lines' (paths_over_time ++ [(time, nodes)]) (Some nodes)
  end.

End Lexer.

(** ** Lines 215-227 in binary64 arithmetic

    The same lines over IEEE 754 double precision numbers, which is what
    Python's [float] is: [float(val[4])] accepts [nan] and [inf], and every
    comparison with a NaN is false. *)

Module Binary64.

(** The rational value of a finite double, in lowest terms. *)
Definition to_Q (x : float) : option Q :=
  match Prim2SF x with
  | S754_zero _ => Some 0%Q
  | S754_finite s m e =>
      let n := if s then Z.neg m else Z.pos m in
      Some (Qred match e with
                 | Z.neg k => n # (2 ^ k)%positive
                 | _ => inject_Z (n * 2 ^ e)
                 end)
  | _ => None
  end.

(** [round(x)]; it raises on NaN and on the infinities. *)
Definition round64 (x : float) : option Z := Py.round <$> to_Q x.

Definition link_width64 (utilization : float) : float :=
  (1 + 5 * utilization)%float.

Definition weights64 (utilization : float) : option (Z * Z) :=
  if (0.5 <=? utilization)%float
  then
    g ← round64 (255 * (1 - utilization) / 0.5)%float;
    Some (255, 0 + g)%Z
  else
    r ← round64 (255 * (0.5 - utilization) / 0.5)%float;
    Some (255 - r, 255)%Z.

Definition hex_col64 (utilization : float) : option string :=
  '(red_weight, green_weight) ← weights64 utilization;
  Some (fmt_02x red_weight +:+ fmt_02x green_weight +:+ fmt_02x 0).



End Binary64.

(** * Vocabulary of the statements *)

(** The [j]-th window of a line that starts at [start_ms]. *)
Definition bucket (src dst start_ms j : Z) : bucket_key :=
  (src, dst, start_ms + UTIL_INTERVAL * j,
   start_ms + UTIL_INTERVAL * j + UTIL_INTERVAL)%Z.

(** The quotient rounded up, for a positive divisor. *)
Definition ceil_div (a b : Z) : Z := (- ((- a) `div` b))%Z.

(** The [while] loop written as a recursion on the number of rounds left. *)
Fixpoint rounds (src dst start_ms : Z) (utilization : Qc) (n : nat)
    (m : gmap bucket_key Qc) (i : Z) : gmap bucket_key Qc :=
  match n with
  | O => m
  | S n' =>
      rounds src dst start_ms utilization n'
        (<[(src, dst, start_ms + i, start_ms + i + UTIL_INTERVAL)%Z
           := utilization]> m) (i + UTIL_INTERVAL)%Z
  end.

(** Entry [i] of the timeline passes the test of line 159 at [gen_time]. *)
Definition in_window (paths_over_time : list path_event) (gen_time : Z)
    (i : nat) : Prop :=
  ∃ t nodes, paths_over_time !! i = Some (t, nodes) ∧
             (ns_to_ms t ≤ gen_time < start_next_at paths_over_time i)%Z.


(** The test of line 211 for a path of length [len]. *)
Definition interior (len p : nat) : Prop :=
  (0 < Z.of_nat p < Z.of_nat len - 2)%Z.

#[local] Instance interior_dec len p : Decision (interior len p).
Proof. unfold interior. apply _. Defined.

(** The number of occurrences of a character in a string. *)
Fixpoint count_char (c : ascii) (s : string) : nat :=
  match s with
  | EmptyString => 0
  | String c' s' => (if Ascii.eqb c' c then 1 else 0) + count_char c s'
  end.

(** [sep.join(fields)] for a separator of one character. *)
Fixpoint join (sep : ascii) (fields : list string) : string :=
  match fields with
  | [] => EmptyString
  | [f] => f
  | f :: fields' => f +:+ String sep (join sep fields')
  end.

(** Readers of plain decimal numerals, to stand for [int] and [float] in
    examples: on a numeral such as [351] or [0.8] they return the number it
    denotes.  (What they raise on other strings is not what [int] and
    [float] raise.) *)
Fixpoint decimal_digits (s : string) (acc : Z) : option Z :=
  match s with
  | EmptyString => Some acc
  | String c s' =>
      let d := (Z.of_N (N_of_ascii c) - 48)%Z in
      if bool_decide (0 ≤ d ≤ 9)%Z
      then decimal_digits s' (10 * acc + d)%Z
      else None
  end.

Definition int_of_decimal (s : string) : result Z :=
  match s, decimal_digits s 0 with
  | String _ _, Some n => Ok n
  | _, _ => raise (TypeError "not a decimal numeral")
  end.

Definition ratio_of_decimal (s : string) : result Qc :=
  match split "." s with
  | [whole] => n ← int_of_decimal whole; Ok (Qc_of_Z n)
  | [whole; frac] =>
      n ← int_of_decimal (whole +:+ frac);
      Ok (Q2Qc (n # Z.to_pos (10 ^ Z.of_nat (String.length frac))))
  | _ => raise (TypeError "not a decimal numeral")
  end.

(** The number of windows of a line. *)
Definition windows (val : util_line) : Z :=
  ceil_div (end_ms val - start_ms val) UTIL_INTERVAL.

(** The [j]-th window of a line. *)
Definition window (val : util_line) (j : Z) : bucket_key :=
  bucket (src val) (dst val) (start_ms val) j.

(** The events of a path file are in the order of their timestamps. *)
Definition time_sorted (lines : list path_event) : Prop :=
  ∀ i j ti ni tj nj,
    i ≤ j → lines !! i = Some (ti, ni) → lines !! j = Some (tj, nj) →
    (ti ≤ tj)%Z.

(** The test of line 207 for a path of length [len]. *)
Definition endpoint (len p : nat) : Prop :=
  p = 0 ∨ (Z.of_nat p = Z.of_nat len - 1)%Z.

#[local] Instance endpoint_dec len p : Decision (endpoint len p).
Proof. unfold endpoint. apply _. Defined.

(** The positions that pass the test of line 207, in the order of the loop. *)
Definition endpoints (len : nat) : list nat :=
  match len with
  | 0 => []
  | 1 => [0]
  | S (S n) => [0; S n]
  end.

(** The pair [tag] is what lines 208-210 add to [OUT_HTML_FILE] for the node
    at position [p]: the name of its ground station and the node. *)
Definition tag_of_node (num_orbs num_sats_per_orb : shells)
    (city_details : gmap Z string) (SEL_PATH : list Z) (p : nat)
    (tag : string * Z) : Prop :=
  SEL_PATH !! p = Some tag.2 ∧
  ∃ GS, ground_station_id num_orbs num_sats_per_orb tag.2 = Ok GS ∧
        city_details !! GS = Some tag.1.

(** * Properties *)

(** ** Result monad *)

Lemma bind_Ok {A B} (m : result A) (k : A → result B) (b : B) :
  (m ≫= k) = Ok b ↔ ∃ a, m = Ok a ∧ k a = Ok b.
Proof.
  destruct m as [a|e]; simpl.
  - split; [eauto | by intros (? & [= <-] & ?)].
  - split; [done | by intros (? & ? & ?)].
Qed.

(** ** The utilization index *)

Lemma ceil_div_spec a n :
  (n = ceil_div a UTIL_INTERVAL ↔ UTIL_INTERVAL * (n - 1) < a ≤ UTIL_INTERVAL * n)%Z.
Proof. unfold ceil_div, UTIL_INTERVAL. Z.div_mod_to_equations. lia. Qed.

(** Equality of two keys that differ only in how their bounds are written. *)
Ltac key_eq := unfold UTIL_INTERVAL; f_equal; [f_equal|]; lia.

Section Expand.

Variables (src dst start_ms end_ms : Z) (utilization : Qc).

Lemma expand_buckets_step m i :
  expand_buckets m src dst start_ms end_ms utilization i =
    if decide (i < end_ms - start_ms)%Z
    then expand_buckets
           (<[(src, dst, start_ms + i, start_ms + i + UTIL_INTERVAL)%Z
              := utilization]> m)
           src dst start_ms end_ms utilization (i + UTIL_INTERVAL)%Z
    else m.
Proof.
  etrans; [apply expand_buckets_equation_1|].
  by destruct (decide _).
Qed.

Lemma expand_buckets_rounds n m i :
  n = Z.to_nat (ceil_div (end_ms - start_ms - i) UTIL_INTERVAL) →
  expand_buckets m src dst start_ms end_ms utilization i
  = rounds src dst start_ms utilization n m i.
Proof.
  revert m i. induction n as [|n IH]; intros m i Hn;
    rewrite expand_buckets_step; destruct (decide _) as [Hlt|Hge]; simpl.
  - exfalso. revert Hn Hlt. unfold ceil_div, UTIL_INTERVAL.
    Z.div_mod_to_equations. lia.
  - done.
  - apply IH. revert Hn Hlt. unfold ceil_div, UTIL_INTERVAL.
    Z.div_mod_to_equations. lia.
  - exfalso. revert Hn Hge. unfold ceil_div, UTIL_INTERVAL.
    Z.div_mod_to_equations. lia.
Qed.

Lemma rounds_miss n m i k :
  (∀ j, (0 ≤ j < Z.of_nat n)%Z →
        k ≠ (src, dst, start_ms + i + UTIL_INTERVAL * j,
             start_ms + i + UTIL_INTERVAL * j + UTIL_INTERVAL)%Z) →
  rounds src dst start_ms utilization n m i !! k = m !! k.
Proof.
  revert m i. induction n as [|n IH]; intros m i Hk; simpl; [done|].
  rewrite IH.
  - apply lookup_insert_ne. intros Heq. apply (Hk 0%Z); [lia|].
    rewrite <- Heq. key_eq.
  - intros j Hj Heq. apply (Hk (j + 1)%Z); [lia|].
    rewrite Heq. key_eq.
Qed.

Lemma rounds_hit n m i j :
  (0 ≤ j < Z.of_nat n)%Z →
  rounds src dst start_ms utilization n m i !! (src, dst, start_ms + i + UTIL_INTERVAL * j,
                   start_ms + i + UTIL_INTERVAL * j + UTIL_INTERVAL)%Z
  = Some utilization.
Proof.
  revert m i j. induction n as [|n IH]; intros m i j Hj; simpl; [lia|].
  destruct (decide (j = 0%Z)) as [->|Hne].
  - rewrite rounds_miss.
    + replace (start_ms + i + UTIL_INTERVAL * 0)%Z with (start_ms + i)%Z by lia.
      apply lookup_insert_eq.
    + intros j' Hj' [= Heq]. unfold UTIL_INTERVAL in Heq. lia.
  - specialize (IH (<[(src, dst, start_ms + i, start_ms + i + UTIL_INTERVAL)%Z
                      := utilization]> m) (i + UTIL_INTERVAL)%Z (j - 1)%Z).
    replace (start_ms + (i + UTIL_INTERVAL) + UTIL_INTERVAL * (j - 1))%Z
      with (start_ms + i + UTIL_INTERVAL * j)%Z in IH
      by (unfold UTIL_INTERVAL; lia).
    apply IH. lia.
Qed.

Lemma rounds_size n m i :
  (∀ j, (0 ≤ j < Z.of_nat n)%Z →
        m !! (src, dst, start_ms + i + UTIL_INTERVAL * j,
              start_ms + i + UTIL_INTERVAL * j + UTIL_INTERVAL)%Z = None) →
  size (rounds src dst start_ms utilization n m i) = (size m + n)%nat.
Proof.
  revert m i. induction n as [|n IH]; intros m i Hfresh; simpl; [lia|].
  rewrite IH.
  - rewrite map_size_insert_None; [lia|].
    specialize (Hfresh 0%Z).
    replace (start_ms + i + UTIL_INTERVAL * 0)%Z with (start_ms + i)%Z
      in Hfresh by lia.
    apply Hfresh. lia.
  - intros j Hj. rewrite lookup_insert_ne.
    + specialize (Hfresh (j + 1)%Z).
      replace (start_ms + i + UTIL_INTERVAL * (j + 1))%Z
        with (start_ms + (i + UTIL_INTERVAL) + UTIL_INTERVAL * j)%Z
        in Hfresh by (unfold UTIL_INTERVAL; lia).
      apply Hfresh. lia.
    + intros [= Heq]. unfold UTIL_INTERVAL in Heq. lia.
Qed.

End Expand.

(** A line never raises: the guard on [utilization] has no effect. *)
Lemma ingest_line_ok m val :
  ingest_line m val =
    Ok (expand_buckets m (src val) (dst val) (start_ms val) (end_ms val)
          (utilization val) 0).
Proof. unfold ingest_line. by destruct (bool_decide _). Qed.

Lemma ingest_line_rounds m val :
  ingest_line m val =
    Ok (rounds (src val) (dst val) (start_ms val) (utilization val)
          (Z.to_nat (ceil_div (end_ms val - start_ms val) UTIL_INTERVAL)) m 0).
Proof.
  rewrite ingest_line_ok. f_equal. apply expand_buckets_rounds.
  by rewrite Z.sub_0_r.
Qed.

Lemma ingest_ok lines m : ∃ m', ingest lines m = Ok m'.
Proof.
  revert m. induction lines as [|val lines IH]; intros m; simpl; [eauto|].
  rewrite ingest_line_ok. simpl. apply IH.
Qed.

Lemma bucket_rounds_key src dst start_ms j :
  bucket src dst start_ms j =
    (src, dst, start_ms + 0 + UTIL_INTERVAL * j,
     start_ms + 0 + UTIL_INTERVAL * j + UTIL_INTERVAL)%Z.
Proof. unfold bucket. key_eq. Qed.

(** What one line does to the index, in terms of its [n] windows. *)
Lemma ingest_line_spec m val :
  let n := ceil_div (end_ms val - start_ms val) UTIL_INTERVAL in
  ∃ m', ingest_line m val = Ok m' ∧
    (∀ j, (0 ≤ j < n)%Z →
          m' !! bucket (src val) (dst val) (start_ms val) j
          = Some (utilization val)) ∧
    (∀ k, (∀ j, (0 ≤ j < n)%Z →
                k ≠ bucket (src val) (dst val) (start_ms val) j) →
          m' !! k = m !! k) ∧
    ((∀ j, (0 ≤ j < n)%Z →
           m !! bucket (src val) (dst val) (start_ms val) j = None) →
     size m' = (size m + Z.to_nat n)%nat).
Proof.
  intros n. eexists. split; [apply ingest_line_rounds|]. fold n.
  split; [|split].
  - intros j Hj. rewrite bucket_rounds_key. apply rounds_hit. lia.
  - intros k Hk. apply rounds_miss. intros j Hj.
    rewrite <- bucket_rounds_key. apply Hk. lia.
  - intros Hfresh. apply rounds_size. intros j Hj.
    rewrite <- bucket_rounds_key. apply Hfresh. lia.
Qed.

(** C9: for a line with [start_ms < end_ms], the loop stores
    [ceil((end_ms - start_ms) / UTIL_INTERVAL)] windows, the [j]-th being
    [[start_ms + 100 j, start_ms + 100 j + 100)], each with the line's
    utilization, and nothing else changes; every instant of
    [[start_ms, end_ms)] lies in one of them; and when the span is not a
    multiple of [UTIL_INTERVAL] the upper bound of the last window is
    beyond [end_ms]. *)
Theorem C9_expansion_covers_span (m : gmap bucket_key Qc) (val : util_line) :
  let n := ceil_div (end_ms val - start_ms val) UTIL_INTERVAL in
  let window j := bucket (src val) (dst val) (start_ms val) j in
  (start_ms val < end_ms val)%Z →
  ∃ m', ingest_line m val = Ok m' ∧
    (0 < n)%Z ∧
    (∀ j, (0 ≤ j < n)%Z → m' !! window j = Some (utilization val)) ∧
    (∀ k, (∀ j, (0 ≤ j < n)%Z → k ≠ window j) → m' !! k = m !! k) ∧
    ((∀ j, (0 ≤ j < n)%Z → m !! window j = None) →
     size m' = (size m + Z.to_nat n)%nat) ∧
    (∀ t, (start_ms val ≤ t < end_ms val)%Z →
          ∃ j, (0 ≤ j < n)%Z ∧
               m' !! window j = Some (utilization val) ∧
               (start_ms val + UTIL_INTERVAL * j ≤ t
                < start_ms val + UTIL_INTERVAL * j + UTIL_INTERVAL)%Z) ∧
    (((end_ms val - start_ms val) `mod` UTIL_INTERVAL ≠ 0)%Z →
     (end_ms val
      < start_ms val + UTIL_INTERVAL * (n - 1) + UTIL_INTERVAL)%Z).
Proof.
  intros n window Hspan.
  destruct (ingest_line_spec m val) as (m' & Hm' & Hhit & Hmiss & Hsize).
  fold n in Hhit, Hmiss, Hsize.
  assert (Hn : (UTIL_INTERVAL * (n - 1) < end_ms val - start_ms val
                ≤ UTIL_INTERVAL * n)%Z) by by apply ceil_div_spec.
  exists m'. split; [done|]. split; [unfold UTIL_INTERVAL in Hn; lia|].
  split; [done|]. split; [done|]. split; [done|]. split.
  - intros t Ht. exists ((t - start_ms val) `div` UTIL_INTERVAL)%Z.
    assert (Hj : (0 ≤ (t - start_ms val) `div` UTIL_INTERVAL < n)%Z).
    { revert Hn Ht. unfold UTIL_INTERVAL. Z.div_mod_to_equations. lia. }
    split; [done|]. split; [by apply Hhit|].
    revert Ht. unfold UTIL_INTERVAL. Z.div_mod_to_equations. lia.
  - intros Hmod. revert Hn Hmod. unfold UTIL_INTERVAL.
    Z.div_mod_to_equations. lia.
Qed.

Lemma C9_expansion_covers_span_witness :
  let val := UtilLine 10 11 0 300000000 half in
  (start_ms val < end_ms val)%Z ∧
  ∃ m', ingest_line ∅ val = Ok m' ∧ size m' = 3%nat.
Proof.
  intros val. split; [vm_compute; reflexivity|].
  destruct (C9_expansion_covers_span ∅ val)
    as (m' & Hm' & _ & _ & _ & Hsize & _).
  - vm_compute. reflexivity.
  - exists m'. split; [exact Hm'|].
    rewrite Hsize; [reflexivity|]. intros j _. apply lookup_empty.
Defined.

(** C1 (as amended): for a line whose span is positive and not a multiple of
    [UTIL_INTERVAL], the loop stores the [q = (end_ms - start_ms) div 100]
    full windows that fit within the span and, after them, one more window
    of full width that starts before [end_ms] and ends beyond it; no other
    key changes. *)
Theorem C1_trailing_window_is_stored (m : gmap bucket_key Qc) (val : util_line) :
  let q := ((end_ms val - start_ms val) `div` UTIL_INTERVAL)%Z in
  let window j := bucket (src val) (dst val) (start_ms val) j in
  (start_ms val < end_ms val)%Z →
  ((end_ms val - start_ms val) `mod` UTIL_INTERVAL ≠ 0)%Z →
  ∃ m', ingest_line m val = Ok m' ∧
    (∀ j, (0 ≤ j < q)%Z →
          m' !! window j = Some (utilization val) ∧
          (start_ms val + UTIL_INTERVAL * j + UTIL_INTERVAL ≤ end_ms val)%Z) ∧
    m' !! window q = Some (utilization val) ∧
    (start_ms val + UTIL_INTERVAL * q < end_ms val
     < start_ms val + UTIL_INTERVAL * q + UTIL_INTERVAL)%Z ∧
    (∀ k, (∀ j, (0 ≤ j ≤ q)%Z → k ≠ window j) → m' !! k = m !! k) ∧
    ((∀ j, (0 ≤ j ≤ q)%Z → m !! window j = None) →
     size m' = (size m + Z.to_nat (q + 1))%nat).
Proof.
  intros q window Hspan Hmod.
  destruct (ingest_line_spec m val) as (m' & Hm' & Hhit & Hmiss & Hsize).
  assert (Hn : ceil_div (end_ms val - start_ms val) UTIL_INTERVAL = (q + 1)%Z).
  { symmetry. apply ceil_div_spec. subst q. revert Hspan Hmod.
    unfold UTIL_INTERVAL. Z.div_mod_to_equations. lia. }
  rewrite Hn in Hhit, Hmiss, Hsize.
  assert (Hq : (0 ≤ q)%Z).
  { subst q. revert Hspan. unfold UTIL_INTERVAL. Z.div_mod_to_equations. lia. }
  exists m'. split; [done|]. split; [|split; [|split; [|split]]].
  - intros j Hj. split; [apply Hhit; lia|].
    subst q. revert Hj. unfold UTIL_INTERVAL. Z.div_mod_to_equations. lia.
  - apply Hhit. lia.
  - subst q. revert Hmod. unfold UTIL_INTERVAL. Z.div_mod_to_equations. lia.
  - intros k Hk. apply Hmiss. intros j Hj. apply Hk. lia.
  - intros Hfresh. apply Hsize. intros j Hj. apply Hfresh. lia.
Qed.

Lemma C1_trailing_window_is_stored_witness :
  let val := UtilLine 10 11 0 250000000 half in
  (start_ms val < end_ms val)%Z ∧
  ((end_ms val - start_ms val) `mod` UTIL_INTERVAL ≠ 0)%Z ∧
  ∃ m', ingest_line ∅ val = Ok m' ∧
        m' !! (10, 11, 200, 300)%Z = Some half.
Proof.
  intros val. split; [vm_compute; reflexivity|]. split; [by vm_compute|].
  destruct (C1_trailing_window_is_stored ∅ val)
    as (m' & Hm' & _ & Hlast & _).
  - vm_compute. reflexivity.
  - by vm_compute.
  - exists m'. split; [exact Hm'|exact Hlast].
Defined.

(** C1 as stated fails: a span of 250 ms gives three windows, not two, and
    the third one, [[200, 300)], ends beyond [end_ms = 250]. *)
Lemma C1_counterexample :
  let val := UtilLine 10 11 0 250000000 half in
  (end_ms val - start_ms val = 250)%Z ∧
  ∃ m', ingest_line ∅ val = Ok m' ∧
        size m' = 3%nat ∧ size m' ≠ 2%nat ∧
        m' !! (10, 11, 200, 300)%Z = Some half ∧
        (end_ms val < 300)%Z.
Proof.
  intros val. split; [reflexivity|].
  exists (expand_buckets ∅ 10 11 0 250 half 0).
  split; [apply ingest_line_ok|].
  repeat split; by vm_compute.
Qed.

(** C2: the guard of line 174 builds a [SystemError] and drops it.  A line
    with utilization 3/2 is ingested without an exception and its value is
    stored in the index; more generally, ingestion never raises. *)
Theorem C2_overfull_line_is_stored :
  let val := UtilLine 10 11 0 100000000 (Q2Qc (3 # 2)) in
  (1 < utilization val)%Qc ∧
  (∃ m', ingest [val] ∅ = Ok m' ∧
         m' !! (10, 11, 0, 100)%Z = Some (Q2Qc (3 # 2))) ∧
  (∀ lines m, is_ok (ingest lines m) = true).
Proof.
  intros val. split; [reflexivity|]. split.
  - exists (expand_buckets ∅ 10 11 0 100 (Q2Qc (3 # 2)) 0).
    split; by vm_compute.
  - intros lines m. by destruct (ingest_ok lines m) as [m' ->].
Qed.

(** ** The path timeline *)

Lemma read_path_lines_spec lines pot nodes :
  read_path_lines lines pot nodes =
    (pot ++ lines,
     match last lines with Some (_, n) => Some n | None => nodes end).
Proof.
  revert pot nodes. induction lines as [|[t n] lines IH]; intros pot nodes.
  - by rewrite app_nil_r.
  - simpl read_path_lines. rewrite IH, <- app_assoc, last_cons.
    by destruct (last lines) as [[??]|].
Qed.

(** With no line at all, [nodes] is still unbound at line 148. *)
Lemma build_paths_over_time_empty pot :
  build_paths_over_time [] pot = Raise (UnboundLocalError "nodes").
Proof. reflexivity. Qed.

Lemma build_paths_over_time_last lines t nodes :
  last lines = Some (t, nodes) →
  build_paths_over_time lines [] = Ok (lines ++ [(0%Z, nodes)]).
Proof.
  intros Hlast. unfold build_paths_over_time.
  by rewrite read_path_lines_spec, Hlast.
Qed.

(** C7: for a non-empty path file, [paths_over_time] is the events in file
    order followed by exactly one more entry, whose timestamp is 0 and whose
    node list is that of the last line read. *)
Theorem C7_timeline_has_trailing_entry
    (lines : list path_event) (t : Z) (nodes : list Z) :
  last lines = Some (t, nodes) →
  build_paths_over_time lines [] = Ok (lines ++ [(0%Z, nodes)]) ∧
  ∀ paths_over_time,
    build_paths_over_time lines [] = Ok paths_over_time →
    length paths_over_time = S (length lines) ∧
    take (length lines) paths_over_time = lines ∧
    last paths_over_time = Some (0%Z, nodes).
Proof.
  intros Hlast.
  assert (Hb : build_paths_over_time lines [] = Ok (lines ++ [(0%Z, nodes)]))
    by by apply (build_paths_over_time_last lines t).
  split; [done|]. intros pot. rewrite Hb. intros [= <-].
  rewrite length_app, take_app_length, last_snoc. simpl. split; [lia|done].
Qed.

Lemma C7_timeline_has_trailing_entry_witness :
  let lines := [(0, [1; 2; 3]); (5000000, [1; 4; 3])]%Z in
  last lines = Some (5000000, [1; 4; 3])%Z ∧
  build_paths_over_time lines [] =
    Ok [(0, [1; 2; 3]); (5000000, [1; 4; 3]); (0, [1; 4; 3])]%Z.
Proof.
  intros lines. split; [reflexivity|].
  apply (C7_timeline_has_trailing_entry lines 5000000 [1; 4; 3]%Z).
  reflexivity.
Defined.

Lemma select_path_skip pot q i range :
  i < length pot → ¬ in_window pot q i →
  select_path pot q (i :: range) = select_path pot q range.
Proof.
  intros Hi Hout. cbn [select_path].
  destruct (lookup_lt_is_Some_2 pot i Hi) as [[t nodes] Hlk]. rewrite Hlk.
  destruct (bool_decide _ && bool_decide _) eqn:Htest; [|done].
  exfalso. apply Hout. exists t, nodes. split; [done|].
  apply andb_true_iff in Htest as [H1%bool_decide_eq_true H2%bool_decide_eq_true].
  lia.
Qed.

Lemma select_path_take pot q i range t nodes :
  pot !! i = Some (t, nodes) → in_window pot q i →
  select_path pot q (i :: range) = Ok (t, nodes).
Proof.
  intros Hlk (t' & nodes' & Hlk' & Hin). cbn [select_path].
  rewrite Hlk in Hlk' |- *. injection Hlk' as <- <-.
  rewrite !bool_decide_eq_true_2; [done|lia..].
Qed.

Lemma select_path_none pot q range :
  (∀ j, j ∈ range → j < length pot ∧ ¬ in_window pot q j) →
  select_path pot q range = Ok (0%Z, []).
Proof.
  induction range as [|j range IH]; intros Hall; [done|].
  destruct (Hall j) as [Hj Hout]; [apply elem_of_cons; by left|].
  rewrite select_path_skip by done. apply IH.
  intros j' Hj'. apply Hall, elem_of_cons. by right.
Qed.

Lemma select_path_first pot q before i after t nodes :
  (∀ j, j ∈ before → j < length pot ∧ ¬ in_window pot q j) →
  pot !! i = Some (t, nodes) → in_window pot q i →
  select_path pot q (before ++ i :: after) = Ok (t, nodes).
Proof.
  intros Hbefore Hlk Hin. revert Hbefore.
  induction before as [|j before IH]; intros Hbefore; simpl app.
  - by apply select_path_take.
  - destruct (Hbefore j) as [Hj Hout]; [apply elem_of_cons; by left|].
    rewrite select_path_skip by done. apply IH.
    intros j' Hj'. apply Hbefore, elem_of_cons. by right.
Qed.

(** The loop ends normally, either at an entry that passes the test or, if
    none in the range does, with the initial values. *)
Lemma select_path_cases pot q range :
  (∀ j, j ∈ range → j < length pot) →
  (∃ i t nodes, i ∈ range ∧ pot !! i = Some (t, nodes) ∧ in_window pot q i ∧
                select_path pot q range = Ok (t, nodes)) ∨
  ((∀ j, j ∈ range → ¬ in_window pot q j) ∧
   select_path pot q range = Ok (0%Z, [])).
Proof.
  induction range as [|j range IH]; intros Hrange.
  - right. split; [|done]. by intros j ?%elem_of_nil.
  - destruct (lookup_lt_is_Some_2 pot j) as [[t nodes] Hlk];
      [apply Hrange, elem_of_cons; by left|].
    destruct (decide (ns_to_ms t ≤ q < start_next_at pot j)%Z) as [Hin|Hout].
    + left. exists j, t, nodes. split; [apply elem_of_cons; by left|].
      split; [done|].
      assert (in_window pot q j) by (exists t, nodes; done).
      split; [done|]. by apply select_path_take.
    + assert (¬ in_window pot q j) as Hnot.
      { intros (t' & nodes' & Hlk' & Hin). rewrite Hlk in Hlk'.
        injection Hlk' as <- <-. done. }
      rewrite select_path_skip;
        [|apply Hrange, elem_of_cons; by left|done].
      destruct IH as [(i & t' & nodes' & Hi & ? & ? & ?)|[Hall ?]].
      * intros j' Hj'. apply Hrange, elem_of_cons. by right.
      * left. exists i, t', nodes'. split; [apply elem_of_cons; by right|done].
      * right. split; [|done]. intros j' [->|?]%elem_of_cons; [done|by apply Hall].
Qed.

Lemma resolve_first pot q i t nodes :
  pot !! i = Some (t, nodes) → in_window pot q i →
  (∀ j, j < i → ¬ in_window pot q j) →
  resolve pot q = Ok (t, nodes).
Proof.
  intros Hlk Hin Hfirst. unfold resolve.
  assert (Hi : i < length pot) by (apply lookup_lt_is_Some; eauto).
  replace (length pot) with (i + S (length pot - S i)) by lia.
  rewrite seq_app. cbn [seq]. apply select_path_first; [|done..].
  intros j [_ Hj]%elem_of_seq. split; [lia|]. apply Hfirst. lia.
Qed.

Lemma resolve_default pot q :
  (∀ i, ¬ in_window pot q i) → resolve pot q = Ok (0%Z, []).
Proof.
  intros Hnone. apply select_path_none.
  intros j [_ Hj]%elem_of_seq. split; [lia|apply Hnone].
Qed.

Lemma resolve_cases pot q :
  (∃ i t nodes, pot !! i = Some (t, nodes) ∧ in_window pot q i ∧
                resolve pot q = Ok (t, nodes)) ∨
  ((∀ i, ¬ in_window pot q i) ∧ resolve pot q = Ok (0%Z, [])).
Proof.
  destruct (select_path_cases pot q (seq 0 (length pot)))
    as [(i & t & nodes & _ & ? & ? & ?)|[Hall ?]].
  - intros j [_ Hj]%elem_of_seq. lia.
  - left. by exists i, t, nodes.
  - right. split; [|done]. intros i Hin. apply (Hall i); [|done].
    destruct Hin as (t & nodes & Hlk%lookup_lt_Some & _).
    apply elem_of_seq. lia.
Qed.

(** C3 (as amended): the scan over the stored timeline (the events and the
    trailing entry) selects the first entry [i] with
    [start_ms(i) <= gen_time < start_ms(i+1)], where the upper bound is
    99999999999 when [i] is the last entry; if no entry passes, the result is
    time 0 with the empty path; the scan never raises.  For events at 0 ns
    and 5000000 ns (0 ms and 5 ms), a query at 2 ms selects the first event's
    path and a query at 6 ms selects the second event's path. *)
Theorem C3_resolve_selects_first_window :
  (∀ pot q i t nodes,
     pot !! i = Some (t, nodes) →
     (ns_to_ms t ≤ q < start_next_at pot i)%Z →
     (∀ j, j < i → ¬ in_window pot q j) →
     resolve pot q = Ok (t, nodes)) ∧
  (∀ pot q, (∀ i, ¬ in_window pot q i) → resolve pot q = Ok (0%Z, [])) ∧
  (∀ pot q, is_ok (resolve pot q) = true) ∧
  (∀ pot i,
     start_next_at pot i =
       match pot !! S i with
       | Some (t, _) => ns_to_ms t
       | None => 99999999999%Z
       end) ∧
  (∀ pot, build_paths_over_time
            [(0, [1; 2; 3]); (5000000, [1; 4; 3])]%Z [] = Ok pot →
          resolve pot 2 = Ok (0, [1; 2; 3])%Z ∧
          resolve pot 6 = Ok (0, [1; 4; 3])%Z).
Proof.
  split; [|split; [|split; [|split]]].
  - intros pot q i t nodes Hlk Hin Hfirst.
    apply (resolve_first pot q i); [done| |done]. by exists t, nodes.
  - apply resolve_default.
  - intros pot q.
    by destruct (resolve_cases pot q) as [(? & ? & ? & _ & _ & ->)|[_ ->]].
  - intros pot i. unfold start_next_at. by rewrite Nat.add_1_r.
  - intros pot [= <-]. split; reflexivity.
Qed.

Lemma C3_resolve_selects_first_window_witness :
  let pot := [(0, [1; 2; 3]); (5000000, [1; 4; 3]); (0, [1; 4; 3])]%Z in
  pot !! 0%nat = Some (0, [1; 2; 3])%Z ∧
  (ns_to_ms 0 ≤ 2 < start_next_at pot 0)%Z ∧
  resolve pot 2 = Ok (0, [1; 2; 3])%Z.
Proof.
  intros pot. split; [reflexivity|]. split; [by vm_compute|].
  apply (proj1 C3_resolve_selects_first_window pot 2%Z 0%nat).
  - reflexivity.
  - by vm_compute.
  - intros j Hj. lia.
Defined.

(** C3 as stated fails on its own example: 5000 ns is 0 ms, not 5 ms, so
    with events at 0 ns and 5000 ns neither event passes the test at 2 ms;
    the scan ends at the trailing entry and returns the second event's
    path.  It also fails at the upper bound: at 99999999999 ms the last
    entry starts in the past, yet it is not selected. *)
Lemma C3_counterexample :
  let first_path := [1; 2; 3]%Z in
  let second_path := [1; 4; 3]%Z in
  (ns_to_ms 5000 = 0%Z ∧
   ∃ pot, build_paths_over_time [(0%Z, first_path); (5000%Z, second_path)] []
          = Ok pot ∧
          resolve pot 2 = Ok (0%Z, second_path) ∧
          resolve pot 2 ≠ Ok (0%Z, first_path)) ∧
  (∃ pot, build_paths_over_time [(0%Z, first_path)] [] = Ok pot ∧
          pot !! 1%nat = Some (0%Z, first_path) ∧
          pot !! 2%nat = None ∧
          (ns_to_ms 0 ≤ 99999999999)%Z ∧
          resolve pot 99999999999 = Ok (0%Z, [])).
Proof.
  intros first_path second_path. split.
  - split; [reflexivity|].
    eexists. split; [reflexivity|]. split; [reflexivity|]. by vm_compute.
  - eexists. split; [reflexivity|]. repeat split. by vm_compute.
Qed.

(** C10 (as amended): for a non-empty path file and a query time with
    [0 <= gen_time < 99999999999], the scan stops at an entry of the
    timeline that passes the test (the trailing entry passes it if no
    earlier one does), and the selected node list is that of a line of the
    file. *)
Theorem C10_resolve_returns_an_event_path
    (lines : list path_event) (t0 : Z) (nodes0 : list Z) (q : Z) :
  last lines = Some (t0, nodes0) →
  (0 ≤ q < 99999999999)%Z →
  ∃ pot i t nodes,
    build_paths_over_time lines [] = Ok pot ∧
    resolve pot q = Ok (t, nodes) ∧
    pot !! i = Some (t, nodes) ∧
    in_window pot q i ∧
    nodes ∈ lines.*2.
Proof.
  intros Hlast Hq.
  pose proof (build_paths_over_time_last lines t0 nodes0 Hlast) as Hb.
  set (pot := lines ++ [(0%Z, nodes0)]) in *.
  assert (Hsentinel : in_window pot q (length lines)).
  { exists 0%Z, nodes0. split.
    - unfold pot. by rewrite lookup_app_r, Nat.sub_diag by lia.
    - unfold start_next_at.
      rewrite (lookup_ge_None_2 pot) by (unfold pot; rewrite length_app; simpl; lia).
      change (ns_to_ms 0) with 0%Z. unfold FAR_FUTURE. lia. }
  destruct (resolve_cases pot q) as [(i & t & nodes & Hlk & Hin & Hres)|[Hnone _]].
  - exists pot, i, t, nodes. do 4 (split; [done|]).
    unfold pot in Hlk. apply lookup_app_Some in Hlk as [Hlk|[_ Hlk]].
    + apply list_elem_of_fmap. exists (t, nodes). split; [done|].
      by eapply list_elem_of_lookup_2.
    + apply list_lookup_singleton_Some in Hlk as [_ [= <- <-]].
      apply list_elem_of_fmap. exists (t0, nodes0). split; [done|].
      by apply last_Some_elem_of.
  - by destruct (Hnone (length lines)).
Qed.

Lemma C10_resolve_returns_an_event_path_witness :
  let lines := [(0, [1; 2; 3]); (5000000, [1; 4; 3])]%Z in
  last lines = Some (5000000, [1; 4; 3])%Z ∧
  (0 ≤ GEN_TIME < 99999999999)%Z ∧
  ∃ pot i t nodes,
    build_paths_over_time lines [] = Ok pot ∧
    resolve pot GEN_TIME = Ok (t, nodes) ∧
    pot !! i = Some (t, nodes) ∧
    in_window pot GEN_TIME i ∧
    nodes ∈ lines.*2.
Proof.
  intros lines. split; [reflexivity|]. split; [by vm_compute|].
  apply (C10_resolve_returns_an_event_path lines 5000000 [1; 4; 3]%Z GEN_TIME).
  - reflexivity.
  - by vm_compute.
Defined.

(** C10 as stated fails for a query time of 99999999999 ms or more: no entry
    passes the test, not even the trailing one, and the scan returns time 0
    with the empty path, which is the node list of no event. *)
Lemma C10_counterexample :
  let lines := [(0, [1; 2; 3])]%Z in
  Forall (λ e, (0 ≤ e.1)%Z) lines ∧
  (0 ≤ 99999999999)%Z ∧
  ∃ pot, build_paths_over_time lines [] = Ok pot ∧
         resolve pot 99999999999 = Ok (0%Z, []) ∧
         [] ∉ lines.*2.
Proof.
  intros lines. split; [by repeat constructor|]. split; [done|].
  eexists. split; [reflexivity|]. split; [reflexivity|].
  intros [[t nodes] [Hnil Hin]]%list_elem_of_fmap.
  apply list_elem_of_singleton in Hin. by simplify_eq.
Qed.

(** ** The encoder *)

Lemma link_width_range u :
  (0 ≤ u ≤ 1)%Qc → (1 ≤ link_width u ≤ Qc_of_Z 6)%Qc.
Proof.
  intros [H0 H1]. unfold link_width.
  assert (H5 : (0 ≤ Qc_of_Z 5)%Qc) by done.
  split.
  - rewrite <- (Qcplus_0_r 1) at 1. apply Qcplus_le_mono_l.
    rewrite <- (Qcmult_0_r (Qc_of_Z 5)). by apply Qcmult_le_mono_nonneg_l.
  - replace (Qc_of_Z 6) with (1 + Qc_of_Z 5 * 1)%Qc
      by (by apply Qc_is_canon).
    apply Qcplus_le_mono_l. by apply Qcmult_le_mono_nonneg_l.
Qed.

(** C5: utilization 0 gives colour 00ff00 and width 1, utilization 1 gives
    ff0000 and width 6, utilization 1/2 gives ffff00 and width 7/2; the width
    is [1 + 5 * utilization], which lies in [[1, 6]] for a utilization in
    [[0, 1]]; and at utilization 1/2 the two branches of the colour ramp give
    the same weights. *)
Theorem C5_encoder_values :
  (link_width 0 = 1%Qc ∧ hex_col 0 = "00ff00") ∧
  (link_width 1 = Qc_of_Z 6 ∧ hex_col 1 = "ff0000") ∧
  (link_width half = Q2Qc (7 # 2) ∧ hex_col half = "ffff00") ∧
  (∀ u, link_width u = (1 + Qc_of_Z 5 * u)%Qc) ∧
  (∀ u, (0 ≤ u ≤ 1)%Qc → (1 ≤ link_width u ≤ Qc_of_Z 6)%Qc) ∧
  weights_upper half = weights_lower half.
Proof.
  split; [|split; [|split; [|split; [|split]]]].
  - split; [by apply Qc_is_canon|reflexivity].
  - split; [by apply Qc_is_canon|reflexivity].
  - split; [by apply Qc_is_canon|reflexivity].
  - reflexivity.
  - apply link_width_range.
  - reflexivity.
Qed.

Lemma C5_encoder_values_witness :
  (0 ≤ half ≤ 1)%Qc ∧ (1 ≤ link_width half ≤ Qc_of_Z 6)%Qc.
Proof.
  split; [done|].
  apply (proj1 (proj2 (proj2 (proj2 (proj2 C5_encoder_values)))) half).
  done.
Defined.

(** At 0.0, 0.5 and 1.0 the double precision computation gives the colours
    and widths of the rational model. *)
Lemma binary64_encoder_agrees :
  (Binary64.hex_col64 0 = Some (hex_col 0) ∧
   Binary64.to_Q (Binary64.link_width64 0) = Some (1 # 1)) ∧
  (Binary64.hex_col64 0.5 = Some (hex_col half) ∧
   Binary64.to_Q (Binary64.link_width64 0.5) = Some (7 # 2)) ∧
  (Binary64.hex_col64 1 = Some (hex_col 1) ∧
   Binary64.to_Q (Binary64.link_width64 1) = Some (6 # 1)).
Proof. vm_compute. repeat split. Qed.

(** ** The links of the selected path *)



Section RenderFacts.

Variables (num_orbs num_sats_per_orb : shells).
Variable city_details : gmap Z string.
Variable time_wise_util : gmap bucket_key Qc.
Variable gen_time : Z.
Variable SEL_PATH : list Z.

Lemma getitem_Some k v :
  time_wise_util !! k = Some v → getitem time_wise_util k = Ok v.
Proof. unfold getitem. by intros ->. Qed.

Lemma getitem_None a b c d :
  time_wise_util !! (a, b, c, d) = None →
  getitem time_wise_util (a, b, c, d) = Raise (KeyError (KTuple4 a b c d)).
Proof. unfold getitem. by intros ->. Qed.

Lemma hop_utilization_Some a b u1 u2 :
  time_wise_util !! (a, b, gen_time - UTIL_INTERVAL, gen_time)%Z = Some u1 →
  time_wise_util !! (b, a, gen_time - UTIL_INTERVAL, gen_time)%Z = Some u2 →
  hop_utilization time_wise_util gen_time a b
  = Ok (if bool_decide (u1 < u2)%Qc then u2 else u1).
Proof.
  intros H1 H2. unfold hop_utilization.
  by rewrite (getitem_Some _ _ H1), (getitem_Some _ _ H2).
Qed.

Lemma hop_utilization_None a b :
  time_wise_util !! (a, b, gen_time - UTIL_INTERVAL, gen_time)%Z = None ∨
  time_wise_util !! (b, a, gen_time - UTIL_INTERVAL, gen_time)%Z = None →
  ∃ k, hop_utilization time_wise_util gen_time a b = Raise (KeyError k) ∧
       (k = KTuple4 a b (gen_time - UTIL_INTERVAL) gen_time ∨
        k = KTuple4 b a (gen_time - UTIL_INTERVAL) gen_time).
Proof.
  intros Hmiss. unfold hop_utilization.
  destruct (time_wise_util !! (a, b, gen_time - UTIL_INTERVAL, gen_time)%Z)
    as [u1|] eqn:H1.
  - destruct Hmiss as [?|H2]; [done|].
    rewrite (getitem_Some _ _ H1), (getitem_None _ _ _ _ H2). eauto.
  - rewrite (getitem_None _ _ _ _ H1). eauto.
Qed.

(** A step at an interior position [0 < p < len - 2] only renders. *)
Lemma render_step_interior p a b sc :
  0 < p → p + 2 < length SEL_PATH →
  SEL_PATH !! p = Some a → SEL_PATH !! (p + 1) = Some b →
  render_step num_orbs num_sats_per_orb city_details time_wise_util gen_time
    SEL_PATH p sc
  = (utilization ← hop_utilization time_wise_util gen_time a b;
     Ok (Scene (viz_links sc
                  ++ [Link a b (link_width utilization) (hex_col utilization)])
               (out_html_file sc))).
Proof.
  intros Hp Hlen Ha Hb. unfold render_step.
  rewrite (bool_decide_eq_false_2 (p = 0)) by lia.
  rewrite (bool_decide_eq_false_2 (Z.of_nat p = _)%Z) by lia.
  rewrite !bool_decide_eq_true_2 by lia. simpl.
  unfold path_at. by rewrite Ha, Hb.
Qed.




(** An exception in one round of the loop ends the loop. *)
Lemma render_loop_raises range p :
  p ∈ range →
  (∀ sc, is_ok (render_step num_orbs num_sats_per_orb city_details
                  time_wise_util gen_time SEL_PATH p sc) = false) →
  ∀ sc, is_ok (render_loop num_orbs num_sats_per_orb city_details
                 time_wise_util gen_time SEL_PATH range sc) = false.
Proof.
  intros Hp Hraise. induction range as [|p' range IH]; intros sc.
  - by apply elem_of_nil in Hp.
  - cbn [render_loop].
    destruct (render_step _ _ _ _ _ _ p' sc) as [sc1|e] eqn:Hstep; [|done].
    simpl. apply elem_of_cons in Hp as [->|Hp]; [|by apply IH].
    specialize (Hraise sc). by rewrite Hstep in Hraise.
Qed.

(** The loop ends normally when the configuration is scalar, the two ends
    of the path are known ground stations and every interior hop has its
    two windows in the index. *)
Lemma render_step_ok a b p sc :
  num_orbs = Scalar a → num_sats_per_orb = Scalar b →
  p < length SEL_PATH →
  (∀ node, p = 0 ∨ S p = length SEL_PATH → SEL_PATH !! p = Some node →
           is_Some (city_details !! (node - a * b)%Z)) →
  (∀ x y, interior (length SEL_PATH) p →
          SEL_PATH !! p = Some x → SEL_PATH !! (p + 1) = Some y →
          is_Some (time_wise_util
                     !! (x, y, gen_time - UTIL_INTERVAL, gen_time)%Z) ∧
          is_Some (time_wise_util
                     !! (y, x, gen_time - UTIL_INTERVAL, gen_time)%Z)) →
  ∃ sc', render_step num_orbs num_sats_per_orb city_details time_wise_util
           gen_time SEL_PATH p sc = Ok sc'.
Proof.
  intros Hno Hns Hp Hcity Hutil.
  destruct (lookup_lt_is_Some_2 SEL_PATH p Hp) as [x Hx].
  assert (Hfirst : ∃ sc1,
    (if bool_decide (p = 0)
        || bool_decide (Z.of_nat p = Z.of_nat (length SEL_PATH) - 1)%Z
     then
       node ← path_at SEL_PATH p;
       GS ← ground_station_id num_orbs num_sats_per_orb node;
       name ← city_name city_details GS;
       Ok (Scene (viz_links sc) (out_html_file sc ++ [(name, node)]))
     else Ok sc) = Ok sc1).
  { destruct (bool_decide (p = 0) || _) eqn:Hend; [|by eexists].
    destruct (Hcity x) as [name Hname]; [|done|].
    - apply orb_true_iff in Hend
        as [?%bool_decide_eq_true|?%bool_decide_eq_true]; lia.
    - unfold path_at, ground_station_id, city_name.
      rewrite Hx, Hno, Hns. simpl. rewrite Hname. by eexists. }
  destruct Hfirst as [sc1 Hfirst]. unfold render_step. rewrite Hfirst. simpl.
  destruct (bool_decide (0 < Z.of_nat p)%Z && _) eqn:Htest; [|by eexists].
  apply andb_true_iff in Htest
    as [Hlo%bool_decide_eq_true Hhi%bool_decide_eq_true].
  destruct (lookup_lt_is_Some_2 SEL_PATH (p + 1)) as [y Hy]; [lia|].
  destruct (Hutil x y) as [[u1 H1] [u2 H2]]; [done..|].
  unfold path_at. rewrite Hx, Hy. simpl.
  rewrite (hop_utilization_Some _ _ _ _ H1 H2). by eexists.
Qed.

Lemma render_ok a b :
  num_orbs = Scalar a → num_sats_per_orb = Scalar b →
  (∀ p node, p = 0 ∨ S p = length SEL_PATH → SEL_PATH !! p = Some node →
             is_Some (city_details !! (node - a * b)%Z)) →
  (∀ p x y, interior (length SEL_PATH) p →
            SEL_PATH !! p = Some x → SEL_PATH !! (p + 1) = Some y →
            is_Some (time_wise_util
                       !! (x, y, gen_time - UTIL_INTERVAL, gen_time)%Z) ∧
            is_Some (time_wise_util
                       !! (y, x, gen_time - UTIL_INTERVAL, gen_time)%Z)) →
  ∃ sc, render num_orbs num_sats_per_orb city_details time_wise_util gen_time
          SEL_PATH = Ok sc.
Proof.
  intros Hno Hns Hcity Hutil. unfold render.
  assert (Hloop : ∀ range sc,
            (∀ p, p ∈ range → p < length SEL_PATH) →
            ∃ sc', render_loop num_orbs num_sats_per_orb city_details
                     time_wise_util gen_time SEL_PATH range sc = Ok sc').
  { induction range as [|p range IH]; intros sc Hrange; [by eexists|].
    cbn [render_loop].
    destruct (render_step_ok a b p sc) as [sc1 ->]; try done.
    - apply Hrange, elem_of_cons. by left.
    - apply Hcity.
    - apply Hutil.
    - simpl. apply IH. intros q Hq. apply Hrange, elem_of_cons. by right. }
  apply Hloop. intros p [_ Hp]%elem_of_seq. lia.
Qed.

End RenderFacts.

(** ** The two directions of a hop, as doubles *)
















(** C8: reading a key that is not in [time_wise_util] raises [KeyError] with
    that key; at a rendered position whose window is missing in either
    direction the step raises that [KeyError], no link is produced from a
    default value, and the exception ends the loop and the whole function. *)
Theorem C8_missing_window_raises :
  (∀ (time_wise_util : gmap bucket_key Qc) a b c d,
     time_wise_util !! (a, b, c, d) = None →
     getitem time_wise_util (a, b, c, d) = Raise (KeyError (KTuple4 a b c d))) ∧
  (∀ num_orbs num_sats_per_orb city_details
     (time_wise_util : gmap bucket_key Qc) gen_time (SEL_PATH : list Z) p a b,
     0 < p → p + 2 < length SEL_PATH →
     SEL_PATH !! p = Some a → SEL_PATH !! (p + 1) = Some b →
     time_wise_util !! (a, b, gen_time - UTIL_INTERVAL, gen_time)%Z = None ∨
     time_wise_util !! (b, a, gen_time - UTIL_INTERVAL, gen_time)%Z = None →
     (∀ sc, ∃ k,
        render_step num_orbs num_sats_per_orb city_details time_wise_util
          gen_time SEL_PATH p sc = Raise (KeyError k) ∧
        (k = KTuple4 a b (gen_time - UTIL_INTERVAL) gen_time ∨
         k = KTuple4 b a (gen_time - UTIL_INTERVAL) gen_time)) ∧
     is_ok (render num_orbs num_sats_per_orb city_details time_wise_util
              gen_time SEL_PATH) = false ∧
     (∀ path_file IN_UTIL_FILE paths_over_time SEL_PATH_TIME,
        build_paths_over_time path_file [] = Ok paths_over_time →
        resolve paths_over_time gen_time = Ok (SEL_PATH_TIME, SEL_PATH) →
        ingest IN_UTIL_FILE ∅ = Ok time_wise_util →
        is_ok (generate_utilization_at_time path_file IN_UTIL_FILE num_orbs
                 num_sats_per_orb city_details gen_time) = false)).
Proof.
  split.
  - intros twu a b c d Hnone. unfold getitem. by rewrite Hnone.
  - intros no ns cities twu g path p a b Hp Hlen Ha Hb Hmiss.
    assert (Hstep : ∀ sc, ∃ k,
              render_step no ns cities twu g path p sc = Raise (KeyError k) ∧
              (k = KTuple4 a b (g - UTIL_INTERVAL) g ∨
               k = KTuple4 b a (g - UTIL_INTERVAL) g)).
    { intros sc. rewrite (render_step_interior _ _ _ _ _ _ p a b) by done.
      destruct (hop_utilization_None twu g a b Hmiss) as (k & -> & Hk).
      by exists k. }
    assert (Hrender : is_ok (render no ns cities twu g path) = false).
    { apply (render_loop_raises _ _ _ _ _ _ _ p).
      - apply elem_of_seq. lia.
      - intros sc. by destruct (Hstep sc) as (k & -> & _). }
    split; [done|]. split; [done|].
    intros path_file utils pot t Hbuild Hresolve Hingest.
    unfold generate_utilization_at_time.
    rewrite Hbuild. simpl. rewrite Hresolve. simpl. rewrite Hingest. simpl.
    done.
Qed.

Lemma C8_missing_window_raises_witness :
  let SEL_PATH := [9; 10; 11; 12]%Z in
  let city_details : gmap Z string := {[ 9%Z := "Paris"; 12%Z := "Tokyo" ]} in
  is_ok (generate_utilization_at_time [(0%Z, SEL_PATH)]
           [UtilLine 10 11 0 200000000 (Q2Qc (8 # 10))]
           (Scalar 0) (Scalar 0) city_details 200) = false.
Proof.
  intros path cities.
  refine (proj2 (proj2 (proj2 C8_missing_window_raises (Scalar 0) (Scalar 0)
            cities (expand_buckets ∅ 10 11 0 200 (Q2Qc (8 # 10)) 0) 200%Z
            path 1 10%Z 11%Z _ _ _ _ _))
            [(0%Z, path)] [UtilLine 10 11 0 200000000 (Q2Qc (8 # 10))]
            [(0%Z, path); (0%Z, path)] 0%Z _ _ _).
  - lia.
  - simpl. lia.
  - reflexivity.
  - reflexivity.
  - right. by vm_compute.
  - reflexivity.
  - reflexivity.
  - reflexivity.
Defined.

(** ** The whole function on the scenario of the specification

    The log holds [(10,11,0,200 ms,0.8)] and [(11,10,0,200 ms,0.3)] and the
    path file the single event [(0,[9,10,11,12])].  At 200 ms the one interior
    hop is drawn from the larger utilization; at 150 ms the window
    [[50, 150)] is not a key of the index. *)
Lemma scenario_at_200ms :
  let city_details : gmap Z string := {[ 9%Z := "Paris"; 12%Z := "Tokyo" ]} in
  let log := [UtilLine 10 11 0 200000000 (Q2Qc (8 # 10));
              UtilLine 11 10 0 200000000 (Q2Qc (3 # 10))] in
  ∃ sc, generate_utilization_at_time [(0, [9; 10; 11; 12])]%Z log
          (Scalar 0) (Scalar 0) city_details 200 = Ok sc ∧
        (λ l, (sat1 l, sat2 l, Qcanon.this (width l), color l)) <$> viz_links sc
        = [(10, 11, 5 # 1, "ff6600")]%Z ∧
        out_html_file sc = [("Paris", 9%Z); ("Tokyo", 12%Z)].
Proof. intros cities log. eexists. split; [reflexivity|]. by vm_compute. Qed.

Lemma scenario_at_150ms :
  let city_details : gmap Z string := {[ 9%Z := "Paris"; 12%Z := "Tokyo" ]} in
  let log := [UtilLine 10 11 0 200000000 (Q2Qc (8 # 10));
              UtilLine 11 10 0 200000000 (Q2Qc (3 # 10))] in
  generate_utilization_at_time [(0, [9; 10; 11; 12])]%Z log
    (Scalar 0) (Scalar 0) city_details 150
  = Raise (KeyError (KTuple4 10 11 50 150)).
Proof. reflexivity. Qed.

(** * Further properties *)

(** ** The lexical step *)

Lemma split_not_nil sep s : split sep s ≠ [].
Proof.
  destruct s as [|c s]; simpl; [done|].
  destruct (Ascii.eqb c sep); [done|]. by destruct (split sep s).
Qed.

Lemma length_split sep s : length (split sep s) = S (count_char sep s).
Proof.
  induction s as [|c s IH]; simpl; [done|].
  destruct (Ascii.eqb c sep); simpl; [by rewrite IH|].
  pose proof (split_not_nil sep s). by destruct (split sep s).
Qed.

Lemma split_no_sep sep s : count_char sep s = 0 → split sep s = [s].
Proof.
  induction s as [|c s IH]; simpl; [done|].
  destruct (Ascii.eqb c sep); simpl; [done|]. intros Hs. by rewrite IH.
Qed.

Lemma split_field_sep sep f s :
  count_char sep f = 0 →
  split sep (f +:+ String sep s) = f :: split sep s.
Proof.
  induction f as [|c f IH]; simpl.
  - by rewrite Ascii.eqb_refl.
  - destruct (Ascii.eqb c sep); simpl; [done|]. intros Hf. by rewrite IH.
Qed.

Lemma split_join sep fields :
  fields ≠ [] → Forall (λ f, count_char sep f = 0) fields →
  split sep (join sep fields) = fields.
Proof.
  induction fields as [|f fields IH]; [done|]. intros _ Hall.
  apply Forall_cons in Hall as [Hf Hall].
  destruct fields as [|f' fields]; [by apply split_no_sep|].
  change (join sep (f :: f' :: fields))
    with (f +:+ String sep (join sep (f' :: fields))).
  rewrite split_field_sep by done. f_equal. by apply IH.
Qed.

Lemma join_split sep s : join sep (split sep s) = s.
Proof.
  induction s as [|c s IH]; simpl; [done|].
  destruct (Ascii.eqb c sep) eqn:Hc.
  - apply Ascii.eqb_eq in Hc as ->.
    pose proof (split_not_nil sep s).
    destruct (split sep s) as [|f fields] eqn:Hs; [done|].
    change (join sep ("" :: f :: fields))
      with (String sep (join sep (f :: fields))). by rewrite IH.
  - pose proof (split_not_nil sep s).
    destruct (split sep s) as [|f fields] eqn:Hs; [done|].
    destruct fields as [|f' fields]; simpl in *; by rewrite <- IH.
Qed.

Section LexerFacts.

Variable py_int : string → result Z.
Variable py_float : string → result Qc.

(** X1: a line of the path file that holds no comma, a blank line included,
    raises [IndexError] at [val[1]], before [int] is called. *)
Theorem X1_path_line_without_comma (line : string) :
  count_char "," line = 0 →
  lex_path_line py_int line = Raise IndexError.
Proof.
  intros Hline. unfold lex_path_line. by rewrite split_no_sep.
Qed.

(** X2: when a line of the path file is accepted, its time is [int] of the
    first field and its node list is never empty: the second field is the
    nodes joined by dashes; fields after the second are not looked at. *)
Theorem X2_path_line_accepted (line : string) (time : Z) (nodes : list string) :
  lex_path_line py_int line = Ok (time, nodes) →
  nodes ≠ [] ∧
  ∃ val0 val1 rest,
    split "," line = val0 :: val1 :: rest ∧
    py_int val0 = Ok time ∧
    join "-" nodes = val1 ∧
    length nodes = S (count_char "-" val1).
Proof.
  unfold lex_path_line, field. intros Hlex.
  destruct (split "," line) as [|val0 [|val1 rest]] eqn:Hval; try done.
  simpl in Hlex.
  destruct (py_int val0) as [t|e] eqn:Hint; [|done]. simpl in Hlex.
  injection Hlex as <- <-. split; [apply split_not_nil|].
  exists val0, val1, rest. rewrite join_split, length_split. done.
Qed.

(** X3: a line written as [time,n1-n2-...-nk] followed by any further
    comma-separated fields is read back as [(int(time), [n1; ...; nk])],
    provided no field holds a comma and no node holds a dash. *)
Theorem X3_path_line_round_trip
    (time_text : string) (time : Z) (nodes more : list string) :
  py_int time_text = Ok time →
  count_char "," time_text = 0 →
  nodes ≠ [] →
  Forall (λ n, count_char "-" n = 0 ∧ count_char "," n = 0) nodes →
  Forall (λ f, count_char "," f = 0) more →
  lex_path_line py_int (join "," (time_text :: join "-" nodes :: more))
  = Ok (time, nodes).
Proof.
  intros Hint Htime Hne Hnodes Hmore. unfold lex_path_line.
  assert (Hjoin : count_char "," (join "-" nodes) = 0).
  { clear Hne. induction nodes as [|n nodes IH]; [done|].
    apply Forall_cons in Hnodes as [[_ Hn] Hnodes].
    destruct nodes as [|n' nodes]; [done|].
    change (join "-" (n :: n' :: nodes))
      with (n +:+ String "-" (join "-" (n' :: nodes))).
    specialize (IH Hnodes). revert IH. generalize (join "-" (n' :: nodes)).
    intros s Hs. clear -Hn Hs.
    induction n as [|c n IHn]; simpl in *; [done|].
    destruct (Ascii.eqb c ","); [done|]. by apply IHn. }
  rewrite split_join.
  - simpl. rewrite Hint. simpl. f_equal. f_equal.
    apply split_join; [done|]. eapply Forall_impl; [done|]. by intros ? [? _].
  - done.
  - by repeat constructor.
Qed.

(** X4: a line of the utilization log with fewer than five comma-separated
    fields is never accepted. *)
Theorem X4_util_line_too_short (line : string) :
  count_char "," line < 4 →
  is_ok (lex_util_line py_int py_float line) = false.
Proof.
  intros Hshort. unfold lex_util_line.
  assert (Hval : split "," line !! 4 = None).
  { apply lookup_ge_None. rewrite length_split. lia. }
  destruct (field (split "," line) 0 ≫= py_int) as [?|?]; [simpl|done].
  destruct (field (split "," line) 1 ≫= py_int) as [?|?]; [simpl|done].
  destruct (field (split "," line) 2 ≫= py_int) as [?|?]; [simpl|done].
  destruct (field (split "," line) 3 ≫= py_int) as [?|?]; [simpl|done].
  unfold field. by rewrite Hval.
Qed.

Lemma read_util_file_ingest lines vals m :
  Forall2 (λ line val, lex_util_line py_int py_float line = Ok val) lines vals →
  read_util_file py_int py_float lines m = ingest vals m.
Proof.
  intros Hall. revert m.
  induction Hall as [|line val lines vals Hline _ IH]; intros m; [done|].
  simpl. rewrite Hline. simpl.
  destruct (ingest_line m val) as [m'|e]; [apply IH|done].
Qed.

(** X5: the index built from the text of the log is the index built from its
    converted lines in file order; the first line that is not accepted ends
    the reading with its exception, whatever follows it. *)
Theorem X5_read_util_file_in_order
    (lines : list string) (vals : list util_line)
    (m : gmap bucket_key Qc) :
  Forall2 (λ line val, lex_util_line py_int py_float line = Ok val) lines vals →
  read_util_file py_int py_float lines m = ingest vals m ∧
  ∀ bad rest e,
    lex_util_line py_int py_float bad = Raise e →
    read_util_file py_int py_float (lines ++ bad :: rest) m = Raise e.
Proof.
  intros Hall. split; [by apply read_util_file_ingest|].
  intros bad rest e Hbad. revert m.
  induction Hall as [|line val lines vals Hline _ IH]; intros m.
  - simpl. by rewrite Hbad.
  - simpl. rewrite Hline. simpl. rewrite ingest_line_ok. simpl. apply IH.
Qed.

End LexerFacts.

Lemma X1_path_line_without_comma_witness :
  count_char "," "" = 0 ∧ lex_path_line int_of_decimal "" = Raise IndexError.
Proof.
  split; [reflexivity|].
  apply (X1_path_line_without_comma int_of_decimal ""). reflexivity.
Defined.

Lemma X2_path_line_accepted_witness :
  lex_path_line int_of_decimal "5000000,351-12-373"
  = Ok (5000000%Z, ["351"; "12"; "373"]) ∧
  ["351"; "12"; "373"] ≠ [].
Proof.
  split; [reflexivity|].
  apply (X2_path_line_accepted int_of_decimal "5000000,351-12-373" 5000000).
  reflexivity.
Defined.

Lemma X3_path_line_round_trip_witness :
  join "," ["5000000"; join "-" ["351"; "12"; "373"]] = "5000000,351-12-373" ∧
  lex_path_line int_of_decimal "5000000,351-12-373"
  = Ok (5000000%Z, ["351"; "12"; "373"]).
Proof.
  split; [reflexivity|].
  apply (X3_path_line_round_trip int_of_decimal "5000000" 5000000
           ["351"; "12"; "373"] []).
  - reflexivity.
  - reflexivity.
  - discriminate.
  - repeat constructor.
  - constructor.
Defined.

Lemma X4_util_line_too_short_witness :
  count_char "," "10,11,0,100000000" < 4 ∧
  is_ok (lex_util_line int_of_decimal ratio_of_decimal "10,11,0,100000000")
  = false.
Proof.
  split; [vm_compute; lia|].
  apply (X4_util_line_too_short int_of_decimal ratio_of_decimal).
  vm_compute. lia.
Defined.

Lemma X5_read_util_file_in_order_witness :
  let lines := ["10,11,0,200000000,0.8"; "11,10,0,200000000,0.3"] in
  let vals := [UtilLine 10 11 0 200000000 (Q2Qc (8 # 10));
               UtilLine 11 10 0 200000000 (Q2Qc (3 # 10))] in
  read_util_file int_of_decimal ratio_of_decimal lines ∅ = ingest vals ∅ ∧
  read_util_file int_of_decimal ratio_of_decimal (lines ++ ["10,11"]) ∅
  = Raise IndexError.
Proof.
  intros lines vals.
  destruct (X5_read_util_file_in_order int_of_decimal ratio_of_decimal
              lines vals ∅) as [Hok Hbad].
  - repeat constructor.
  - split; [exact Hok|]. apply (Hbad "10,11" [] IndexError). reflexivity.
Defined.

(** ** Nanoseconds to milliseconds *)

Lemma ns_to_ms_unfold t :
  ns_to_ms t =
    match (2 * (t `mod` 1000000) ?= 1000000)%Z with
    | Lt => (t `div` 1000000)%Z
    | Gt => (t `div` 1000000 + 1)%Z
    | Eq => if Z.even (t `div` 1000000) then (t `div` 1000000)%Z
            else (t `div` 1000000 + 1)%Z
    end.
Proof. unfold ns_to_ms, Py.round. simpl. by rewrite Z.mul_1_r. Qed.

Lemma ns_to_ms_nearest t :
  (-500000 ≤ t - 1000000 * ns_to_ms t ≤ 500000)%Z.
Proof.
  rewrite ns_to_ms_unfold.
  destruct (Z.compare_spec (2 * (t `mod` 1000000)) 1000000);
    repeat match goal with |- context [Z.even ?x] => destruct (Z.even x) end;
    Z.div_mod_to_equations; lia.
Qed.

Lemma ns_to_ms_mono t1 t2 : (t1 ≤ t2)%Z → (ns_to_ms t1 ≤ ns_to_ms t2)%Z.
Proof.
  intros Hle. rewrite !ns_to_ms_unfold.
  destruct (decide (t1 `div` 1000000 = t2 `div` 1000000)%Z) as [Heq|Hne];
    [rewrite Heq|];
    destruct (Z.compare_spec (2 * (t1 `mod` 1000000)) 1000000);
    destruct (Z.compare_spec (2 * (t2 `mod` 1000000)) 1000000);
    repeat match goal with |- context [Z.even ?x] => destruct (Z.even x) end;
    Z.div_mod_to_equations; lia.
Qed.

Lemma ns_to_ms_whole k : ns_to_ms (1000000 * k) = k.
Proof.
  pose proof (ns_to_ms_nearest (1000000 * k)). lia.
Qed.

(** X6: for a timestamp of at most [2^53] nanoseconds in magnitude (some
    104 days), the conversion of line 152 (and 155, 171, 172) returns a
    millisecond count within half a millisecond of the timestamp, is exact
    on whole milliseconds, and keeps the order of timestamps.  (A double
    holds such a timestamp exactly, and the quotient is below [2^34], where
    two neighbouring doubles are less than two millionths apart: the double
    nearest to the quotient lies on the same side of every half-integer as
    the quotient itself.) *)
Theorem X6_ns_to_ms_rounds_to_nearest :
  (∀ t, (- 2 ^ 53 ≤ t ≤ 2 ^ 53)%Z →
        (-500000 ≤ t - 1000000 * ns_to_ms t ≤ 500000)%Z) ∧
  (∀ k, (- 2 ^ 53 ≤ 1000000 * k ≤ 2 ^ 53)%Z → ns_to_ms (1000000 * k) = k) ∧
  (∀ t1 t2, (- 2 ^ 53 ≤ t1)%Z → (t1 ≤ t2)%Z → (t2 ≤ 2 ^ 53)%Z →
            (ns_to_ms t1 ≤ ns_to_ms t2)%Z).
Proof.
  split; [intros t _; apply ns_to_ms_nearest|].
  split; [intros k _; apply ns_to_ms_whole|].
  intros t1 t2 _ Hle _. by apply ns_to_ms_mono.
Qed.

Lemma X6_ns_to_ms_rounds_to_nearest_witness :
  (- 2 ^ 53 ≤ 5000)%Z ∧ (5000 ≤ 1500000)%Z ∧ (1500000 ≤ 2 ^ 53)%Z ∧
  (ns_to_ms 5000 ≤ ns_to_ms 1500000)%Z.
Proof.
  split; [by vm_compute|]. split; [lia|]. split; [by vm_compute|].
  apply (proj2 (proj2 X6_ns_to_ms_rounds_to_nearest) 5000%Z 1500000%Z).
  - by vm_compute.
  - lia.
  - by vm_compute.
Defined.

(** ** The utilization index, line after line *)

Lemma ingest_app lines1 lines2 m :
  ingest (lines1 ++ lines2) m = ingest lines1 m ≫= ingest lines2.
Proof.
  revert m. induction lines1 as [|val lines1 IH]; intros m; simpl; [done|].
  rewrite ingest_line_ok. simpl. apply IH.
Qed.

Lemma windows_bounds val :
  (UTIL_INTERVAL * (windows val - 1) < end_ms val - start_ms val
   ≤ UTIL_INTERVAL * windows val)%Z.
Proof. by apply ceil_div_spec. Qed.

(** A key either is one of the windows of a line or is left as it was. *)
Lemma ingest_line_lookup m val k :
  ∃ m', ingest_line m val = Ok m' ∧
    ((∃ j, (0 ≤ j < windows val)%Z ∧ k = window val j ∧
           m' !! k = Some (utilization val)) ∨
     ((∀ j, (0 ≤ j < windows val)%Z → k ≠ window val j) ∧
      m' !! k = m !! k)).
Proof.
  destruct (ingest_line_spec m val) as (m' & Hm' & Hhit & Hmiss & _).
  exists m'. split; [done|].
  destruct k as [[[s d] lo] hi].
  set (j0 := ((lo - start_ms val) `div` UTIL_INTERVAL)%Z).
  destruct (decide ((0 ≤ j0 < windows val)%Z ∧ (s, d, lo, hi) = window val j0))
    as [[Hj0 Hk]|Hout].
  - left. exists j0. split; [done|]. split; [done|]. rewrite Hk. by apply Hhit.
  - assert (Hall : ∀ j, (0 ≤ j < windows val)%Z → (s, d, lo, hi) ≠ window val j).
    { intros j Hj Hk. apply Hout. injection Hk as -> -> -> ->.
      assert (j0 = j) as ->; [|done].
      subst j0. unfold UTIL_INTERVAL. Z.div_mod_to_equations. lia. }
    right. split; [done|]. by apply Hmiss.
Qed.

Lemma ingest_line_empty_span m val :
  (end_ms val ≤ start_ms val)%Z → ingest_line m val = Ok m.
Proof.
  intros Hspan. rewrite ingest_line_rounds.
  replace (Z.to_nat _) with 0%nat; [done|].
  pose proof (ceil_div_spec (end_ms val - start_ms val)
                (ceil_div (end_ms val - start_ms val) UTIL_INTERVAL)) as [H _].
  specialize (H eq_refl). unfold UTIL_INTERVAL in *. lia.
Qed.

(** Where a value of the index comes from: it was there before, or it is the
    utilization of a line that has the key among its windows. *)
Lemma ingest_lookup_origin lines m m' k u :
  ingest lines m = Ok m' → m' !! k = Some u →
  m !! k = Some u ∨
  ∃ val j, val ∈ lines ∧ (0 ≤ j < windows val)%Z ∧ k = window val j ∧
           u = utilization val.
Proof.
  revert m. induction lines as [|val lines IH]; intros m; simpl.
  - intros [= <-] Hk. by left.
  - destruct (ingest_line_lookup m val k) as (m1 & -> & Hm1). simpl.
    intros Hrest Hk. destruct (IH m1 Hrest Hk) as [Hk1|(v & j & Hv & ?)].
    + destruct Hm1 as [(j & Hj & Hkj & Hhit)|[_ Hsame]].
      * right. exists val, j. split; [apply elem_of_cons; by left|].
        split; [done|]. split; [done|]. congruence.
      * left. congruence.
    + right. exists v, j. split; [apply elem_of_cons; by right|done].
Qed.

(** Lines none of whose windows is the key leave its value alone. *)
Lemma ingest_lookup_untouched lines m m' k :
  ingest lines m = Ok m' →
  (∀ val j, val ∈ lines → (0 ≤ j < windows val)%Z → k ≠ window val j) →
  m' !! k = m !! k.
Proof.
  revert m. induction lines as [|val lines IH]; intros m; simpl.
  - by intros [= <-] _.
  - destruct (ingest_line_lookup m val k) as (m1 & -> & Hm1). simpl.
    intros Hrest Hout. rewrite (IH m1 Hrest).
    + destruct Hm1 as [(j & Hj & Hkj & _)|[_ Hsame]]; [|done].
      exfalso. apply (Hout val j); [apply elem_of_cons; by left|done..].
    + intros v j Hv. apply Hout, elem_of_cons. by right.
Qed.

(** X7: a line whose span is not positive ([end_ms <= start_ms]) leaves no
    trace: the log with the line and the log without it build the same
    index. *)
Theorem X7_empty_span_line_is_ignored
    (before after : list util_line) (val : util_line)
    (m : gmap bucket_key Qc) :
  (end_ms val ≤ start_ms val)%Z →
  ingest (before ++ val :: after) m = ingest (before ++ after) m.
Proof.
  intros Hspan. rewrite !ingest_app.
  destruct (ingest before m) as [m1|e]; [simpl|done].
  by rewrite ingest_line_empty_span.
Qed.

Lemma X7_empty_span_line_is_ignored_witness :
  let val := UtilLine 10 11 200000000 200000000 half in
  (end_ms val ≤ start_ms val)%Z ∧
  ingest [val] ∅ = Ok ∅.
Proof.
  intros val. split; [by vm_compute|].
  apply (X7_empty_span_line_is_ignored [] [] val ∅). by vm_compute.
Defined.

(** X8: every key of an index built from an empty one has width
    [UTIL_INTERVAL] and comes from a line of the log: the line's source and
    destination, its utilization, and a start inside the line's span at a
    whole number of intervals from the line's start. *)
Theorem X8_index_keys_come_from_lines
    (lines : list util_line) (m' : gmap bucket_key Qc)
    (s d lo hi : Z) (u : Qc) :
  ingest lines ∅ = Ok m' →
  m' !! (s, d, lo, hi) = Some u →
  hi = (lo + UTIL_INTERVAL)%Z ∧
  ∃ val, val ∈ lines ∧ src val = s ∧ dst val = d ∧ utilization val = u ∧
         (start_ms val ≤ lo < end_ms val)%Z ∧
         ((lo - start_ms val) `mod` UTIL_INTERVAL = 0)%Z.
Proof.
  intros Hingest Hk.
  destruct (ingest_lookup_origin lines ∅ m' _ u Hingest Hk)
    as [Hempty|(val & j & Hval & Hj & Hkey & ->)].
  - by rewrite lookup_empty in Hempty.
  - pose proof (windows_bounds val) as Hw.
    injection Hkey as -> -> -> ->. split; [done|].
    exists val. split; [done|]. do 3 (split; [done|]).
    unfold UTIL_INTERVAL in *. split; [lia|].
    Z.div_mod_to_equations. lia.
Qed.

Lemma X8_index_keys_come_from_lines_witness :
  let val := UtilLine 10 11 0 250000000 half in
  ∃ m', ingest [val] ∅ = Ok m' ∧
        m' !! (10, 11, 200, 300)%Z = Some half ∧
        (start_ms val ≤ 200 < end_ms val)%Z.
Proof.
  intros val. exists (expand_buckets ∅ 10 11 0 250 half 0).
  assert (Hm : ingest [val] ∅ = Ok (expand_buckets ∅ 10 11 0 250 half 0))
    by reflexivity.
  assert (Hk : expand_buckets ∅ 10 11 0 250 half 0 !! (10, 11, 200, 300)%Z
               = Some half) by (by vm_compute).
  split; [exact Hm|]. split; [exact Hk|].
  destruct (X8_index_keys_come_from_lines [val] _ 10 11 200 300 half Hm Hk)
    as (_ & v & Hv & _ & _ & _ & Hspan & _).
  apply list_elem_of_singleton in Hv. by subst v.
Defined.

(** X9: ingestion never removes a key. *)
Theorem X9_ingest_keeps_keys
    (lines : list util_line) (m m' : gmap bucket_key Qc) (k : bucket_key) :
  ingest lines m = Ok m' → is_Some (m !! k) → is_Some (m' !! k).
Proof.
  revert m. induction lines as [|val lines IH]; intros m; simpl.
  - by intros [= <-].
  - destruct (ingest_line_lookup m val k) as (m1 & -> & Hm1). simpl.
    intros Hrest Hk. apply (IH m1 Hrest).
    destruct Hm1 as [(j & _ & _ & ->)|[_ ->]]; [by eexists|done].
Qed.

Lemma X9_ingest_keeps_keys_witness :
  let m : gmap bucket_key Qc := {[ (1, 2, 0, 100)%Z := half ]} in
  ∃ m', ingest [UtilLine 10 11 0 100000000 1%Qc] m = Ok m' ∧
        is_Some (m' !! (1, 2, 0, 100)%Z).
Proof.
  intros m. destruct (ingest_ok [UtilLine 10 11 0 100000000 1%Qc] m) as [m' Hm'].
  exists m'. split; [exact Hm'|].
  apply (X9_ingest_keeps_keys _ m m' _ Hm'). by eexists.
Defined.

Lemma ingest_last_wins before after val j m m' :
  ingest (before ++ val :: after) m = Ok m' →
  (0 ≤ j < windows val)%Z →
  (∀ v j', v ∈ after → (0 ≤ j' < windows v)%Z → window val j ≠ window v j') →
  m' !! window val j = Some (utilization val).
Proof.
  rewrite ingest_app. destruct (ingest_ok before m) as [m0 ->]. simpl.
  destruct (ingest_line_spec m0 val) as (m1 & -> & Hhit & _). simpl.
  intros Hafter Hj Hout.
  rewrite (ingest_lookup_untouched after m1 m' _ Hafter Hout).
  by apply Hhit.
Qed.

(** X10: the value under a key is the utilization of the last line of the
    log that has the key among its windows (a later line overwrites an
    earlier one; there is no averaging). *)
Theorem X10_last_line_wins
    (before after : list util_line) (val : util_line) (j : Z)
    (m m' : gmap bucket_key Qc) :
  ingest (before ++ val :: after) m = Ok m' →
  (0 ≤ j < windows val)%Z →
  (∀ v j', v ∈ after → (0 ≤ j' < windows v)%Z → window val j ≠ window v j') →
  m' !! window val j = Some (utilization val).
Proof. apply ingest_last_wins. Qed.

Lemma X10_last_line_wins_witness :
  let first := UtilLine 10 11 0 200000000 (Q2Qc (8 # 10)) in
  let second := UtilLine 10 11 100000000 200000000 (Q2Qc (3 # 10)) in
  ∃ m', ingest [first; second] ∅ = Ok m' ∧
        m' !! (10, 11, 100, 200)%Z = Some (Q2Qc (3 # 10)).
Proof.
  intros first second.
  destruct (ingest_ok [first; second] ∅) as [m' Hm']. exists m'.
  split; [exact Hm'|].
  apply (X10_last_line_wins [first] [] second 0 ∅ m' Hm').
  - by vm_compute.
  - intros v j' Hv. by apply elem_of_nil in Hv.
Defined.

(** X11: the two directions of a link are separate keys.  When no line of
    the log goes from [b] to [a], the utilization of the hop between [a] and
    [b] cannot be read, at any time and in either order of its ends: the
    lookup raises [KeyError]. *)
Theorem X11_one_direction_is_not_enough
    (lines : list util_line) (m' : gmap bucket_key Qc) (gen_time a b : Z) :
  ingest lines ∅ = Ok m' →
  (∀ val, val ∈ lines → ¬ (src val = b ∧ dst val = a)) →
  (∃ k, hop_utilization m' gen_time a b = Raise (KeyError k)) ∧
  (∃ k, hop_utilization m' gen_time b a = Raise (KeyError k)).
Proof.
  intros Hingest Hnone.
  assert (Hmiss : m' !! (b, a, gen_time - UTIL_INTERVAL, gen_time)%Z = None).
  { destruct (m' !! (b, a, gen_time - UTIL_INTERVAL, gen_time)%Z)
      as [u|] eqn:Hk; [|done].
    destruct (ingest_lookup_origin lines ∅ m' _ u Hingest Hk)
      as [Hempty|(val & j & Hval & _ & Hkey & _)].
    - by rewrite lookup_empty in Hempty.
    - injection Hkey as Hs Hd _ _. by destruct (Hnone val Hval). }
  split.
  - destruct (hop_utilization_None m' gen_time a b) as (k & Hk & _); eauto.
  - destruct (hop_utilization_None m' gen_time b a) as (k & Hk & _); eauto.
Qed.

Lemma X11_one_direction_is_not_enough_witness :
  let lines := [UtilLine 10 11 0 200000000 (Q2Qc (8 # 10))] in
  ∃ m', ingest lines ∅ = Ok m' ∧
        ∃ k, hop_utilization m' 200 10 11 = Raise (KeyError k).
Proof.
  intros lines. destruct (ingest_ok lines ∅) as [m' Hm']. exists m'.
  split; [exact Hm'|].
  apply (X11_one_direction_is_not_enough lines m' 200 10 11 Hm').
  intros val Hval [Hs Hd]. apply list_elem_of_singleton in Hval. by subst val.
Defined.

(** ** The path active at a time, on a timeline built from a file *)

Section Timeline.

Variable lines : list path_event.
Variable nl : list Z.

Lemma timeline_lookup_event i e :
  lines !! i = Some e → (lines ++ [(0%Z, nl)]) !! i = Some e.
Proof. apply lookup_app_l_Some. Qed.

Lemma timeline_lookup_trailing :
  (lines ++ [(0%Z, nl)]) !! length lines = Some (0%Z, nl).
Proof. by rewrite lookup_app_r, Nat.sub_diag by lia. Qed.

Lemma timeline_next_event i t n :
  lines !! (i + 1) = Some (t, n) →
  start_next_at (lines ++ [(0%Z, nl)]) i = ns_to_ms t.
Proof.
  intros Hi. unfold start_next_at. by rewrite (timeline_lookup_event _ _ Hi).
Qed.

Lemma timeline_next_of_last_event i :
  i + 1 = length lines →
  start_next_at (lines ++ [(0%Z, nl)]) i = 0%Z.
Proof.
  intros Hi. unfold start_next_at. by rewrite Hi, timeline_lookup_trailing.
Qed.

Lemma timeline_next_of_trailing :
  start_next_at (lines ++ [(0%Z, nl)]) (length lines) = FAR_FUTURE.
Proof.
  unfold start_next_at. rewrite lookup_ge_None_2; [done|].
  rewrite length_app. simpl. lia.
Qed.

Lemma timeline_trailing_in_window q :
  (0 ≤ q < FAR_FUTURE)%Z →
  in_window (lines ++ [(0%Z, nl)]) q (length lines).
Proof.
  intros Hq. exists 0%Z, nl. split; [apply timeline_lookup_trailing|].
  rewrite timeline_next_of_trailing. change (ns_to_ms 0) with 0%Z. lia.
Qed.

(** An event whose successor starts at or before [q], or which is the last
    event while [q] is not negative, does not pass the test. *)
Lemma timeline_event_not_in_window q j :
  j < length lines →
  (∀ t n, lines !! (j + 1) = Some (t, n) → (ns_to_ms t ≤ q)%Z) →
  (j + 1 = length lines → (0 ≤ q)%Z) →
  ¬ in_window (lines ++ [(0%Z, nl)]) q j.
Proof.
  intros Hj Hnext Hend (t & n & _ & Hin).
  destruct (decide (j + 1 = length lines)) as [Heq|Hne].
  - rewrite timeline_next_of_last_event in Hin by done.
    specialize (Hend Heq). lia.
  - destruct (lookup_lt_is_Some_2 lines (j + 1)) as [[t' n'] Hj']; [lia|].
    rewrite (timeline_next_event _ _ _ Hj') in Hin.
    specialize (Hnext _ _ Hj'). lia.
Qed.

Lemma timeline_selects_trailing q :
  (0 ≤ q < FAR_FUTURE)%Z →
  (∀ j, j < length lines → ¬ in_window (lines ++ [(0%Z, nl)]) q j) →
  resolve (lines ++ [(0%Z, nl)]) q = Ok (0%Z, nl).
Proof.
  intros Hq Hnone.
  apply (resolve_first _ q (length lines));
    [apply timeline_lookup_trailing|by apply timeline_trailing_in_window|done].
Qed.

(** The scan over a timeline built from a file stops at one of its entries
    when the time is in range; the node list is that of a line. *)
Lemma timeline_resolve_hits tl q :
  last lines = Some (tl, nl) →
  (0 ≤ q < FAR_FUTURE)%Z →
  ∃ t nodes, resolve (lines ++ [(0%Z, nl)]) q = Ok (t, nodes) ∧
             nodes ∈ lines.*2.
Proof.
  intros Hlast Hq.
  destruct (resolve_cases (lines ++ [(0%Z, nl)]) q)
    as [(i & t & nodes & Hlk & _ & Hres)|[Hnone _]].
  - exists t, nodes. split; [done|].
    apply lookup_app_Some in Hlk as [Hlk|[_ Hlk]].
    + apply list_elem_of_fmap. exists (t, nodes). split; [done|].
      by eapply list_elem_of_lookup_2.
    + apply list_lookup_singleton_Some in Hlk as [_ [= <- <-]].
      apply list_elem_of_fmap. exists (tl, nl). split; [done|].
      by apply last_Some_elem_of.
  - by destruct (Hnone (length lines)); apply timeline_trailing_in_window.
Qed.

End Timeline.

(** X13: on a path file in the order of its timestamps, a time between the
    start of an event (included) and the start of the next event (excluded)
    selects that event, with its own timestamp. *)
Theorem X13_sorted_file_selects_the_active_event
    (lines : list path_event) (i : nat) (t t' : Z) (nodes nodes' : list Z)
    (q : Z) :
  time_sorted lines →
  lines !! i = Some (t, nodes) →
  lines !! (i + 1) = Some (t', nodes') →
  (ns_to_ms t ≤ q < ns_to_ms t')%Z →
  ∃ pot, build_paths_over_time lines [] = Ok pot ∧
         resolve pot q = Ok (t, nodes).
Proof.
  intros Hsorted Hi Hi' Hq.
  destruct (last lines) as [[tl nl]|] eqn:Hlast.
  2:{ apply last_None in Hlast. by subst lines. }
  exists (lines ++ [(0%Z, nl)]).
  split; [by apply (build_paths_over_time_last lines tl)|].
  apply (resolve_first _ q i).
  - by apply timeline_lookup_event.
  - exists t, nodes. split; [by apply timeline_lookup_event|].
    by rewrite (timeline_next_event _ _ _ _ _ Hi').
  - intros j Hj. apply lookup_lt_Some in Hi'.
    apply timeline_event_not_in_window; [lia| |lia].
    intros tj nj Hnext. etrans; [|apply Hq].
    apply ns_to_ms_mono. apply (Hsorted (j + 1) i tj nj t nodes); [lia|done..].
Qed.

Lemma X13_sorted_file_selects_the_active_event_witness :
  let lines := [(0, [1; 2; 3]); (5000000, [1; 4; 3]); (9000000, [1; 5; 3])]%Z in
  time_sorted lines ∧
  ∃ pot, build_paths_over_time lines [] = Ok pot ∧
         resolve pot 6 = Ok (5000000, [1; 4; 3])%Z.
Proof.
  intros lines.
  assert (Hsorted : time_sorted lines).
  { intros i j ti ni tj nj Hij Hi Hj.
    destruct i as [|[|[|i]]]; destruct j as [|[|[|j]]];
      simpl in Hi, Hj; simplify_eq; lia. }
  split; [exact Hsorted|].
  apply (X13_sorted_file_selects_the_active_event lines 1 5000000 9000000
           [1; 4; 3]%Z [1; 5; 3]%Z 6 Hsorted).
  - reflexivity.
  - reflexivity.
  - by vm_compute.
Defined.

(** X14: on a path file in the order of its timestamps whose last event does
    not start before time 0, a time at or after the start of the last event
    (and below 99999999999) selects the last event's path, but through the
    trailing entry: the selected time is 0, not the last event's timestamp. *)
Theorem X14_after_the_last_event
    (lines : list path_event) (tl : Z) (nl : list Z) (q : Z) :
  time_sorted lines →
  last lines = Some (tl, nl) →
  (0 ≤ ns_to_ms tl ≤ q)%Z → (q < 99999999999)%Z →
  ∃ pot, build_paths_over_time lines [] = Ok pot ∧
         resolve pot q = Ok (0%Z, nl).
Proof.
  intros Hsorted Hlast Htl Hq.
  exists (lines ++ [(0%Z, nl)]).
  split; [by apply (build_paths_over_time_last lines tl)|].
  apply timeline_selects_trailing; [unfold FAR_FUTURE; lia|].
  intros j Hj. apply timeline_event_not_in_window; [done| |lia].
  intros tj nj Hnext. etrans; [|apply Htl].
  apply ns_to_ms_mono. rewrite last_lookup in Hlast.
  apply lookup_lt_Some in Hnext as Hlt.
  apply (Hsorted (j + 1) (pred (length lines)) tj nj tl nl); [lia|done..].
Qed.

Lemma X14_after_the_last_event_witness :
  let lines := [(0, [1; 2; 3]); (5000000, [1; 4; 3])]%Z in
  time_sorted lines ∧
  ∃ pot, build_paths_over_time lines [] = Ok pot ∧
         resolve pot GEN_TIME = Ok (0, [1; 4; 3])%Z.
Proof.
  intros lines.
  assert (Hsorted : time_sorted lines).
  { intros i j ti ni tj nj Hij Hi Hj.
    destruct i as [|[|i]]; destruct j as [|[|j]];
      simpl in Hi, Hj; simplify_eq; lia. }
  split; [exact Hsorted|].
  apply (X14_after_the_last_event lines 5000000 [1; 4; 3]%Z GEN_TIME Hsorted).
  - reflexivity.
  - by vm_compute.
  - by vm_compute.
Defined.

(** X15: a time that is not negative (and below 99999999999) and precedes
    the start of every event of the file selects the path of the last line
    of the file, with time 0: neither the first event nor the empty path. *)
Theorem X15_before_the_first_event
    (lines : list path_event) (tl : Z) (nl : list Z) (q : Z) :
  last lines = Some (tl, nl) →
  (∀ t n, (t, n) ∈ lines → (q < ns_to_ms t)%Z) →
  (0 ≤ q < 99999999999)%Z →
  ∃ pot, build_paths_over_time lines [] = Ok pot ∧
         resolve pot q = Ok (0%Z, nl).
Proof.
  intros Hlast Hearly Hq.
  exists (lines ++ [(0%Z, nl)]).
  split; [by apply (build_paths_over_time_last lines tl)|].
  apply timeline_selects_trailing; [unfold FAR_FUTURE; lia|].
  intros j Hj (t & n & Hlk & Hin).
  rewrite lookup_app_l in Hlk by done.
  apply list_elem_of_lookup_2, Hearly in Hlk. lia.
Qed.

Lemma X15_before_the_first_event_witness :
  let lines := [(3000000, [1; 2; 3]); (5000000, [1; 4; 3])]%Z in
  ∃ pot, build_paths_over_time lines [] = Ok pot ∧
         resolve pot 2 = Ok (0, [1; 4; 3])%Z.
Proof.
  intros lines.
  apply (X15_before_the_first_event lines 5000000 [1; 4; 3]%Z 2).
  - reflexivity.
  - intros t n Hin. repeat apply elem_of_cons in Hin as [Hin|Hin];
      [injection Hin as -> _; by vm_compute..|by apply elem_of_nil in Hin].
  - lia.
Defined.

(** X16: at a negative time, with no event starting before time 0, no entry
    is selected: [SEL_PATH] stays the empty list it is set to at line 150,
    and the loop of lines 206-241 over it has no round, whatever the index,
    the configuration and the city table are. *)
Theorem X16_negative_time_selects_no_path
    (path_file : list path_event) (tl : Z) (nl : list Z) (q : Z) :
  last path_file = Some (tl, nl) →
  (∀ t n, (t, n) ∈ path_file → (0 ≤ ns_to_ms t)%Z) →
  (q < 0)%Z →
  (∃ pot, build_paths_over_time path_file [] = Ok pot ∧
          resolve pot q = Ok (0%Z, [])) ∧
  ∀ num_orbs num_sats_per_orb city_details time_wise_util,
    render num_orbs num_sats_per_orb city_details time_wise_util q []
    = Ok (Scene [] []).
Proof.
  intros Hlast Hpos Hq.
  pose proof (build_paths_over_time_last path_file tl nl Hlast) as Hbuild.
  assert (Hres : resolve (path_file ++ [(0%Z, nl)]) q = Ok (0%Z, [])).
  { apply resolve_default. intros i (t & n & Hlk & Hin).
    apply lookup_app_Some in Hlk as [Hlk|[_ Hlk]].
    - apply list_elem_of_lookup_2, Hpos in Hlk. lia.
    - apply list_lookup_singleton_Some in Hlk as [_ [= <- <-]].
      change (ns_to_ms 0) with 0%Z in Hin. lia. }
  split; [by eexists|]. done.
Qed.

Lemma X16_negative_time_selects_no_path_witness :
  ∃ pot, build_paths_over_time [(0, [9; 10; 11; 12])]%Z [] = Ok pot ∧
         resolve pot (-1) = Ok (0%Z, []).
Proof.
  apply (X16_negative_time_selects_no_path [(0, [9; 10; 11; 12])]%Z
           0 [9; 10; 11; 12]%Z (-1)).
  - reflexivity.
  - intros t n Hin. apply list_elem_of_singleton in Hin.
    injection Hin as -> _. by vm_compute.
  - lia.
Defined.

(** X17: when [NUM_ORBS] and [NUM_SATS_PER_ORB] are not both integers, the
    loop of lines 206-241 over a non-empty path raises [TypeError] in its
    first round, at line 208, once [int] has converted the first node: no
    city is looked up, no utilization is read and no link is rendered,
    whatever the index and the city table hold.  The per-shell lists of the
    Telesat block, which are the constants the file ships with, raise it in
    the product of the two lists. *)
Theorem X17_list_constants_raise_TypeError
    (num_orbs num_sats_per_orb : shells) (city_details : gmap Z string)
    (time_wise_util : gmap bucket_key Qc) (gen_time node : Z)
    (rest : list Z) :
  (∀ a b, ¬ (num_orbs = Scalar a ∧ num_sats_per_orb = Scalar b)) →
  (∃ msg, render num_orbs num_sats_per_orb city_details time_wise_util
            gen_time (node :: rest) = Raise (TypeError msg)) ∧
  render NUM_ORBS NUM_SATS_PER_ORB city_details time_wise_util gen_time
    (node :: rest)
  = Raise (TypeError "can't multiply sequence by non-int of type 'list'").
Proof.
  intros Hlists. split; [|reflexivity].
  destruct num_orbs as [a|l1], num_sats_per_orb as [b|l2].
  - by destruct (Hlists a b).
  - by eexists.
  - by eexists.
  - by eexists.
Qed.

Lemma X17_list_constants_raise_TypeError_witness :
  render NUM_ORBS NUM_SATS_PER_ORB ∅ ∅ GEN_TIME [1608; 10; 11; 12; 1610]%Z
  = Raise (TypeError "can't multiply sequence by non-int of type 'list'").
Proof.
  apply (X17_list_constants_raise_TypeError NUM_ORBS NUM_SATS_PER_ORB ∅ ∅
           GEN_TIME 1608 [10; 11; 12; 1610]%Z).
  intros a b [Ha _]. discriminate Ha.
Defined.

(** ** The loop over the selected path *)

Lemma filter_endpoint_range len k m :
  1 ≤ k → k + m ≤ len →
  filter (endpoint len) (seq k m)
  = if decide (k + m = len ∧ 0 < m) then [len - 1] else [].
Proof.
  revert k. induction m as [|m IH]; intros k Hk Hlen.
  - simpl. by rewrite decide_False by lia.
  - cbn [seq]. rewrite filter_cons, IH by lia.
    destruct (decide (endpoint len k)) as [Hend|Hend]; unfold endpoint in Hend.
    + rewrite decide_False by lia. rewrite decide_True by lia.
      f_equal. lia.
    + destruct (decide (S k + m = len ∧ 0 < m)) as [?|?].
      * by rewrite decide_True by lia.
      * rewrite decide_False; [done|]. lia.
Qed.

Lemma filter_endpoint_seq len :
  filter (endpoint len) (seq 0 len) = endpoints len.
Proof.
  destruct len as [|[|n]]; [done..|].
  change (seq 0 (S (S n))) with (0 :: seq 1 (S n)).
  rewrite filter_cons, decide_True by (by left).
  rewrite filter_endpoint_range by lia. by rewrite decide_True by lia.
Qed.

Section RenderMore.

Variables (num_orbs num_sats_per_orb : shells).
Variable city_details : gmap Z string.
Variable gen_time : Z.
Variable SEL_PATH : list Z.

Lemma render_step_tags time_wise_util p sc sc' :
  render_step num_orbs num_sats_per_orb city_details time_wise_util gen_time
    SEL_PATH p sc = Ok sc' →
  if decide (endpoint (length SEL_PATH) p)
  then ∃ tag, out_html_file sc' = out_html_file sc ++ [tag] ∧
              tag_of_node num_orbs num_sats_per_orb city_details SEL_PATH p tag
  else out_html_file sc' = out_html_file sc.
Proof.
  unfold render_step. intros (sc1 & Hfirst & Hsecond)%bind_Ok.
  assert (Hout : out_html_file sc' = out_html_file sc1).
  { destruct (bool_decide _ && bool_decide _); [|by injection Hsecond as <-].
    apply bind_Ok in Hsecond as (a & _ & (b & _ & Hu)%bind_Ok).
    by apply bind_Ok in Hu as (u & _ & [= <-]). }
  rewrite Hout.
  destruct (decide (endpoint (length SEL_PATH) p)) as [Hend|Hend];
    unfold endpoint in Hend.
  - assert (bool_decide (p = 0)
            || bool_decide (Z.of_nat p = Z.of_nat (length SEL_PATH) - 1)%Z
            = true) as Htest.
    { apply orb_true_iff.
      destruct Hend; [left|right]; by apply bool_decide_eq_true. }
    rewrite Htest in Hfirst.
    apply bind_Ok in Hfirst as (node & Hnode & (GS & HGS & Hname)%bind_Ok).
    apply bind_Ok in Hname as (name & Hname & [= <-]). simpl.
    exists (name, node). split; [done|]. unfold tag_of_node. simpl.
    unfold path_at in Hnode. unfold city_name in Hname.
    destruct (SEL_PATH !! p) as [node'|]; [|done].
    destruct (city_details !! GS) as [name'|] eqn:Hcity; [|done].
    simplify_eq. eauto.
  - destruct (bool_decide (p = 0) || _) eqn:Htest.
    + apply orb_true_iff in Htest
        as [?%bool_decide_eq_true|?%bool_decide_eq_true]; tauto.
    + by injection Hfirst as <-.
Qed.

Lemma render_loop_tags time_wise_util range sc sc' :
  render_loop num_orbs num_sats_per_orb city_details time_wise_util gen_time
    SEL_PATH range sc = Ok sc' →
  ∃ tags, out_html_file sc' = out_html_file sc ++ tags ∧
          Forall2 (tag_of_node num_orbs num_sats_per_orb city_details SEL_PATH)
            (filter (endpoint (length SEL_PATH)) range) tags.
Proof.
  revert sc. induction range as [|p range IH]; intros sc; cbn [render_loop].
  - intros [= <-]. exists []. by rewrite app_nil_r.
  - intros (sc1 & Hstep%render_step_tags & Hrest%IH)%bind_Ok.
    destruct Hrest as (tags & Htags & Hall). rewrite filter_cons.
    case_decide.
    + destruct Hstep as (tag & Htag & Hnode). exists (tag :: tags).
      rewrite Htags, Htag, <- app_assoc. split; [done|by constructor].
    + exists tags. by rewrite Htags, Hstep.
Qed.

(** Outside the interior positions a round of the loop does not read the
    index. *)
Lemma render_step_index_unread m1 m2 p sc :
  ¬ interior (length SEL_PATH) p →
  render_step num_orbs num_sats_per_orb city_details m1 gen_time SEL_PATH p sc
  = render_step num_orbs num_sats_per_orb city_details m2 gen_time SEL_PATH p sc.
Proof.
  intros Hout. unfold render_step, interior in *.
  destruct (bool_decide (0 < Z.of_nat p)%Z && _) eqn:Htest; [|done].
  apply andb_true_iff in Htest
    as [?%bool_decide_eq_true ?%bool_decide_eq_true]. lia.
Qed.

Lemma render_loop_index_unread m1 m2 range sc :
  (∀ p, p ∈ range → ¬ interior (length SEL_PATH) p) →
  render_loop num_orbs num_sats_per_orb city_details m1 gen_time SEL_PATH
    range sc
  = render_loop num_orbs num_sats_per_orb city_details m2 gen_time SEL_PATH
      range sc.
Proof.
  revert sc. induction range as [|p range IH]; intros sc Hall; [done|].
  cbn [render_loop].
  rewrite (render_step_index_unread m1 m2) by (apply Hall, elem_of_cons; by left).
  destruct (render_step _ _ _ m2 _ _ p sc) as [sc1|e]; [simpl|done].
  apply IH. intros q Hq. apply Hall, elem_of_cons. by right.
Qed.

End RenderMore.

(** X18: a path of at most three nodes has no interior hop, so the loop never
    reads the utilization index: its result is the same for any two indexes,
    and a missing window cannot make it raise. *)
Theorem X18_short_path_does_not_read_the_index
    (num_orbs num_sats_per_orb : shells) (city_details : gmap Z string)
    (m1 m2 : gmap bucket_key Qc) (gen_time : Z) (SEL_PATH : list Z) :
  length SEL_PATH ≤ 3 →
  render num_orbs num_sats_per_orb city_details m1 gen_time SEL_PATH
  = render num_orbs num_sats_per_orb city_details m2 gen_time SEL_PATH.
Proof.
  intros Hlen. apply render_loop_index_unread.
  intros p _. unfold interior. lia.
Qed.

Lemma X18_short_path_does_not_read_the_index_witness :
  let city_details : gmap Z string := {[ 9%Z := "Paris"; 12%Z := "Tokyo" ]} in
  render (Scalar 0) (Scalar 0) city_details ∅ 200 [9; 10; 12]%Z
  = render (Scalar 0) (Scalar 0) city_details
      {[ (10, 12, 100, 200)%Z := half ]} 200 [9; 10; 12]%Z.
Proof.
  intros cities.
  apply (X18_short_path_does_not_read_the_index (Scalar 0) (Scalar 0) cities
           ∅ {[ (10, 12, 100, 200)%Z := half ]} 200 [9; 10; 12]%Z).
  simpl. lia.
Defined.

(** X19: when the loop ends normally, what it has added to [OUT_HTML_FILE]
    is one pair (city name, node) for the first node of the path and then one
    for the last node (a single pair for a path of one node, none for the
    empty path), each name being that of the ground station numbered
    [node - NUM_ORBS*NUM_SATS_PER_ORB]; and for a non-empty path this happens
    only when both constants are integers. *)
Theorem X19_output_name_tags
    (num_orbs num_sats_per_orb : shells) (city_details : gmap Z string)
    (time_wise_util : gmap bucket_key Qc) (gen_time : Z) (SEL_PATH : list Z)
    (sc : scene) :
  render num_orbs num_sats_per_orb city_details time_wise_util gen_time
    SEL_PATH = Ok sc →
  Forall2 (tag_of_node num_orbs num_sats_per_orb city_details SEL_PATH)
    (endpoints (length SEL_PATH)) (out_html_file sc) ∧
  (SEL_PATH ≠ [] →
   ∃ a b, num_orbs = Scalar a ∧ num_sats_per_orb = Scalar b ∧
          ∀ tag, tag ∈ out_html_file sc →
                 city_details !! (tag.2 - a * b)%Z = Some tag.1).
Proof.
  intros (tags & Htags & Hall)%render_loop_tags. simpl in Htags. subst tags.
  rewrite filter_endpoint_seq in Hall. split; [done|].
  intros Hne.
  assert (Hscalar : ∃ a b, num_orbs = Scalar a ∧ num_sats_per_orb = Scalar b).
  { destruct SEL_PATH as [|x [|y rest]]; [done|..]; simpl in Hall;
      apply Forall2_cons_inv_l in Hall
        as (tag & tags & (_ & GS & HGS & _) & _ & _);
      unfold ground_station_id in HGS;
      destruct num_orbs, num_sats_per_orb; try done; eauto. }
  destruct Hscalar as (a & b & -> & ->). exists a, b. do 2 (split; [done|]).
  intros tag Htag.
  apply list_elem_of_lookup in Htag as [i Hi].
  destruct (Forall2_lookup_r _ _ _ i tag Hall Hi)
    as (p & _ & _ & GS & HGS & Hcity).
  simpl in HGS. by injection HGS as <-.
Qed.

Lemma X19_output_name_tags_witness :
  let city_details : gmap Z string := {[ 9%Z := "Paris"; 12%Z := "Tokyo" ]} in
  ∃ sc, render (Scalar 0) (Scalar 0) city_details ∅ 200 [9; 10; 12]%Z = Ok sc ∧
        ∀ tag, tag ∈ out_html_file sc →
               city_details !! (tag.2 - 0 * 0)%Z = Some tag.1.
Proof.
  intros cities.
  assert (Hrender : ∃ sc, render (Scalar 0) (Scalar 0) cities ∅ 200
                            [9; 10; 12]%Z = Ok sc) by (eexists; reflexivity).
  destruct Hrender as [sc Hrender]. exists sc. split; [exact Hrender|].
  destruct (X19_output_name_tags _ _ _ _ _ _ _ Hrender) as [_ Htags].
  destruct Htags as (a & b & Ha & Hb & Htags); [discriminate|].
  injection Ha as <-. injection Hb as <-. exact Htags.
Defined.

(** X20: the name of the first node's ground station is looked up before any
    utilization: with integer constants, a path whose first node is not in
    the city table raises [KeyError] with the ground station number,
    whatever the index holds. *)
Theorem X20_unknown_first_ground_station
    (a b : Z) (city_details : gmap Z string)
    (time_wise_util : gmap bucket_key Qc) (gen_time : Z)
    (node : Z) (rest : list Z) :
  city_details !! (node - a * b)%Z = None →
  render (Scalar a) (Scalar b) city_details time_wise_util gen_time
    (node :: rest)
  = Raise (KeyError (KInt (node - a * b))).
Proof.
  intros Hcity. unfold render. cbn [length seq render_loop].
  unfold render_step at 1. rewrite (bool_decide_eq_true_2 (0 = 0)) by done.
  unfold path_at at 1, ground_station_id, city_name. simpl.
  by rewrite Hcity.
Qed.

Lemma X20_unknown_first_ground_station_witness :
  render (Scalar 27) (Scalar 13) ∅ ∅ 200 [373; 10; 11; 400]%Z
  = Raise (KeyError (KInt 22)).
Proof.
  apply (X20_unknown_first_ground_station 27 13 ∅ ∅ 200 373 [10; 11; 400]%Z).
  apply lookup_empty.
Defined.

(** ** The encoder on and beyond the unit interval *)

Lemma round_bounds (x : Q) (a b : Z) :
  (inject_Z a <= x)%Q → (x <= inject_Z b)%Q → (a ≤ Py.round x ≤ b)%Z.
Proof.
  unfold Qle, Py.round. destruct x as [n d]. simpl. intros Ha Hb.
  destruct (Z.compare_spec (2 * (n `mod` Z.pos d)) (Z.pos d));
    repeat match goal with |- context [Z.even ?x] => destruct (Z.even x) end;
    Z.div_mod_to_equations; nia.
Qed.


(** Inequalities between canonical rationals, read as inequalities between
    plain rationals. *)
Ltac qc_to_q :=
  unfold Qclt, Qcle in *;
  unfold Qcdiv, Qcmult, Qcminus, Qcplus, Qcopp, Qcinv, Qc_of_Z, half, Q2Qc in *;
  simpl this in *;
  rewrite ?Qred_correct in *;
  change (/ (1 # 2))%Q with (2 # 1)%Q in *;
  unfold inject_Z in *.

Lemma weights_upper_argument (u : Qc) :
  (half ≤ u)%Qc → (u ≤ 1)%Qc →
  (inject_Z 0 <= (Qc_of_Z 255 * (1 - u) / half)%Qc)%Q ∧
  ((Qc_of_Z 255 * (1 - u) / half)%Qc <= inject_Z 255)%Q.
Proof. intros H1 H2. qc_to_q. split; lra. Qed.

Lemma weights_lower_argument (u : Qc) :
  (0 ≤ u)%Qc → (u < half)%Qc →
  (inject_Z 0 <= (Qc_of_Z 255 * (half - u) / half)%Qc)%Q ∧
  ((Qc_of_Z 255 * (half - u) / half)%Qc <= inject_Z 255)%Q.
Proof. intros H1 H2. qc_to_q. split; lra. Qed.

Lemma string_length_app (s1 s2 : string) :
  String.length (s1 +:+ s2) = String.length s1 + String.length s2.
Proof. induction s1 as [|c s1 IH]; simpl; [done|]. by rewrite IH. Qed.

Lemma fmt_02x_length (n : Z) :
  (0 ≤ n ≤ 255)%Z → String.length (fmt_02x n) = 2.
Proof.
  intros Hn.
  assert (Hall : Forall (λ k, String.length (fmt_02x (Z.of_nat k)) = 2)
                   (seq 0 256)).
  { apply (bool_decide_eq_true_1 _). by vm_compute. }
  rewrite Forall_forall in Hall.
  specialize (Hall (Z.to_nat n)). rewrite Z2Nat.id in Hall by lia.
  apply Hall, elem_of_seq. lia.
Qed.

Lemma weights_range (u : Qc) :
  (0 ≤ u ≤ 1)%Qc →
  (0 ≤ (weights u).1 ≤ 255)%Z ∧ (0 ≤ (weights u).2 ≤ 255)%Z ∧
  ((weights u).1 = 255%Z ∨ (weights u).2 = 255%Z).
Proof.
  intros [H0 H1]. unfold weights. case_bool_decide as Hhalf.
  - destruct (weights_upper_argument u Hhalf H1) as [Hlo Hhi].
    pose proof (round_bounds _ 0 255 Hlo Hhi).
    unfold weights_upper. cbn [fst snd]. split; [lia|]. split; [lia|by left].
  - apply Qclt_nge in Hhalf.
    destruct (weights_lower_argument u H0 Hhalf) as [Hlo Hhi].
    pose proof (round_bounds _ 0 255 Hlo Hhi).
    unfold weights_lower. cbn [fst snd]. split; [lia|]. split; [lia|by right].
Qed.

(** X21: for a utilization in [[0, 1]] both colour weights lie in
    [[0, 255]], one of them is 255, and the colour is a string of exactly six
    characters. *)
Theorem X21_colour_is_well_formed (u : Qc) :
  (0 ≤ u ≤ 1)%Qc →
  (0 ≤ (weights u).1 ≤ 255)%Z ∧ (0 ≤ (weights u).2 ≤ 255)%Z ∧
  ((weights u).1 = 255%Z ∨ (weights u).2 = 255%Z) ∧
  String.length (hex_col u) = 6.
Proof.
  intros Hu. destruct (weights_range u Hu) as (Hr & Hg & Hsat).
  do 3 (split; [done|]). unfold hex_col.
  destruct (weights u) as [r g]. simpl in Hr, Hg.
  rewrite !string_length_app, !fmt_02x_length by lia. done.
Qed.

Lemma X21_colour_is_well_formed_witness :
  (0 ≤ Q2Qc (8 # 10) ≤ 1)%Qc ∧ String.length (hex_col (Q2Qc (8 # 10))) = 6.
Proof.
  split; [done|].
  apply (X21_colour_is_well_formed (Q2Qc (8 # 10))). done.
Defined.



(** In double precision: the first double above [1021/1020] gives the green
    weight -1, and 1.5 gives [ff-ff00] as above.  An infinite utilization,
    which [float] accepts as well, makes [round] raise: no colour is
    produced. *)
Lemma binary64_over_unit_colour :
  Binary64.weights64 (next_up (1021 / 1020)) = Some (255, -1)%Z ∧
  Binary64.hex_col64 (next_up (1021 / 1020)) = Some "ff-100" ∧
  Binary64.hex_col64 1.5 = Some "ff-ff00" ∧
  Binary64.to_Q (Binary64.link_width64 1.5) = Some (17 # 2) ∧
  Binary64.hex_col64 infinity = None.
Proof. vm_compute. repeat split. Qed.

(** ** The path file as text *)

Section PathFileFacts.

Variable py_int : string → result Z.

Lemma lex_path_line_nodes line time nodes :
  lex_path_line py_int line = Ok (time, nodes) → nodes ≠ [].
Proof.
  unfold lex_path_line. intros (val1 & _ & Hrest)%bind_Ok.
  apply bind_Ok in Hrest as (val0 & _ & Hrest).
  apply bind_Ok in Hrest as (t & _ & [= _ <-]). apply split_not_nil.
Qed.

Lemma read_path_file_events lines events pot nodes :
  Forall2 (λ line e, lex_path_line py_int line = Ok e) lines events →
  read_path_file py_int lines pot nodes =
    match last events, nodes with
    | Some (_, n), _ => Ok (pot ++ events ++ [(0%Z, n)])
    | None, Some n => Ok (pot ++ [(0%Z, n)])
    | None, None => Raise (UnboundLocalError "nodes")
    end.
Proof.
  intros Hall. revert pot nodes.
  induction Hall as [|line [t n] lines events Hline _ IH]; intros pot nodes.
  - simpl. by destruct nodes.
  - cbn [read_path_file]. rewrite Hline. simpl. rewrite IH, last_cons.
    destruct (last events) as [[t' n']|] eqn:Hlast.
    + by rewrite <- app_assoc.
    + apply last_None in Hlast as ->. by rewrite <- app_assoc.
Qed.

(** X23: when every line of a non-empty path file is accepted, the timeline
    read from the text is the events in file order followed by one entry with
    time 0 and the nodes of the last line; every entry, the trailing one
    included, has at least one node; and a line that is not accepted ends
    the reading with its exception. *)
Theorem X23_path_file_text
    (lines : list string) (events : list (Z * list string))
    (t : Z) (n : list string) :
  Forall2 (λ line e, lex_path_line py_int line = Ok e) lines events →
  last events = Some (t, n) →
  read_path_file py_int lines [] None = Ok (events ++ [(0%Z, n)]) ∧
  Forall (λ e, e.2 ≠ []) (events ++ [(0%Z, n)]) ∧
  ∀ bad rest e,
    lex_path_line py_int bad = Raise e →
    read_path_file py_int (lines ++ bad :: rest) [] None = Raise e.
Proof.
  intros Hall Hlast. split; [|split].
  - by rewrite (read_path_file_events _ events), Hlast.
  - assert (Hevents : Forall (λ e, e.2 ≠ []) events).
    { clear Hlast. induction Hall as [|line [t' n'] ???? IH]; constructor;
        [by eapply lex_path_line_nodes|done]. }
    apply Forall_app. split; [done|]. constructor; [|done].
    apply last_Some_elem_of in Hlast.
    by apply (proj1 (Forall_forall _ _) Hevents) in Hlast.
  - intros bad rest e Hbad. clear Hlast.
    generalize (@nil (Z * list string)) (@None (list string)).
    induction Hall as [|line [t' n'] ???? IH]; intros pot nodes.
    + simpl. by rewrite Hbad.
    + simpl. rewrite H. simpl. apply IH.
Qed.

End PathFileFacts.

Lemma X23_path_file_text_witness :
  let lines := ["0,351-12-373"; "5000000,351-40-373"] in
  read_path_file int_of_decimal lines [] None
  = Ok [(0, ["351"; "12"; "373"]); (5000000, ["351"; "40"; "373"]);
        (0, ["351"; "40"; "373"])]%Z.
Proof.
  intros lines.
  apply (X23_path_file_text int_of_decimal lines
           [(0, ["351"; "12"; "373"]); (5000000, ["351"; "40"; "373"])]%Z
           5000000 ["351"; "40"; "373"]).
  - repeat constructor.
  - reflexivity.
Defined.

(** ** What the hop lookup can return *)

Lemma hop_utilization_Ok (m : gmap bucket_key Qc) gen_time a b u :
  hop_utilization m gen_time a b = Ok u →
  ∃ u1 u2,
    m !! (a, b, gen_time - UTIL_INTERVAL, gen_time)%Z = Some u1 ∧
    m !! (b, a, gen_time - UTIL_INTERVAL, gen_time)%Z = Some u2 ∧
    u = if bool_decide (u1 < u2)%Qc then u2 else u1.
Proof.
  unfold hop_utilization, getitem.
  destruct (m !! (a, b, gen_time - UTIL_INTERVAL, gen_time)%Z) as [u1|]; [|done].
  destruct (m !! (b, a, gen_time - UTIL_INTERVAL, gen_time)%Z) as [u2|]; [|done].
  simpl. intros [= <-]. by exists u1, u2.
Qed.

(** X24: the lookup of a hop never invents a value.  On an index built from
    a log, a utilization returned for the hop between [a] and [b] at
    [gen_time] is the utilization of a line of that link, in one direction or
    the other, whose span holds the start [gen_time - UTIL_INTERVAL] of the
    queried window at a whole number of intervals from the line's start. *)
Theorem X24_hop_value_comes_from_the_log
    (lines : list util_line) (m' : gmap bucket_key Qc) (gen_time a b : Z)
    (u : Qc) :
  ingest lines ∅ = Ok m' →
  hop_utilization m' gen_time a b = Ok u →
  ∃ val, val ∈ lines ∧ utilization val = u ∧
         (src val = a ∧ dst val = b ∨ src val = b ∧ dst val = a) ∧
         (start_ms val ≤ gen_time - UTIL_INTERVAL < end_ms val)%Z ∧
         ((gen_time - UTIL_INTERVAL - start_ms val) `mod` UTIL_INTERVAL = 0)%Z.
Proof.
  intros Hingest (u1 & u2 & H1 & H2 & ->)%hop_utilization_Ok.
  assert (Horigin : ∀ s d w,
            m' !! (s, d, gen_time - UTIL_INTERVAL, gen_time)%Z = Some w →
            ∃ val, val ∈ lines ∧ utilization val = w ∧
                   (src val = s ∧ dst val = d) ∧
                   (start_ms val ≤ gen_time - UTIL_INTERVAL < end_ms val)%Z ∧
                   ((gen_time - UTIL_INTERVAL - start_ms val)
                      `mod` UTIL_INTERVAL = 0)%Z).
  { intros s d w Hk.
    destruct (ingest_lookup_origin lines ∅ m' _ w Hingest Hk)
      as [Hempty|(val & j & Hval & Hj & Hkey & ->)].
    - by rewrite lookup_empty in Hempty.
    - pose proof (windows_bounds val) as Hw.
      injection Hkey as -> -> Hlo _. exists val. do 3 (split; [done|]).
      rewrite Hlo. unfold UTIL_INTERVAL in *. split; [lia|].
      Z.div_mod_to_equations. lia. }
  case_bool_decide.
  - destruct (Horigin b a u2 H2) as (val & ? & ? & ? & ? & ?).
    exists val. do 2 (split; [done|]). split; [by right|done].
  - destruct (Horigin a b u1 H1) as (val & ? & ? & ? & ? & ?).
    exists val. do 2 (split; [done|]). split; [by left|done].
Qed.

Lemma X24_hop_value_comes_from_the_log_witness :
  let ab := UtilLine 10 11 0 200000000 (Q2Qc (8 # 10)) in
  let ba := UtilLine 11 10 0 200000000 (Q2Qc (3 # 10)) in
  ∃ m' val, ingest [ab; ba] ∅ = Ok m' ∧
            hop_utilization m' 200 10 11 = Ok (Q2Qc (8 # 10)) ∧
            val ∈ [ab; ba] ∧ utilization val = Q2Qc (8 # 10).
Proof.
  intros ab ba.
  assert (Hm : ∃ m', ingest [ab; ba] ∅ = Ok m' ∧
                     hop_utilization m' 200 10 11 = Ok (Q2Qc (8 # 10))).
  { eexists. split; reflexivity. }
  destruct Hm as (m' & Hm & Hhop).
  destruct (X24_hop_value_comes_from_the_log [ab; ba] m' 200 10 11 _ Hm Hhop)
    as (val & Hval & Hu & _).
  exists m', val. done.
Defined.

(** ** The order of the lines of the log *)

Lemma ingest_line_swap m v1 v2 :
  (src v1, dst v1) ≠ (src v2, dst v2) →
  (ingest_line m v1 ≫= λ m1, ingest_line m1 v2)
  = (ingest_line m v2 ≫= λ m2, ingest_line m2 v1).
Proof.
  intros Hne.
  destruct (ingest_line_spec m v1) as (m1 & Hm1 & _).
  destruct (ingest_line_spec m v2) as (m2 & Hm2 & _).
  destruct (ingest_line_spec m1 v2) as (m12 & Hm12 & _).
  destruct (ingest_line_spec m2 v1) as (m21 & Hm21 & _).
  rewrite Hm1, Hm2. simpl. rewrite Hm12, Hm21. f_equal.
  apply map_eq. intros k.
  destruct (ingest_line_lookup m v1 k) as (? & Heq & Ha);
    rewrite Hm1 in Heq; injection Heq as <-.
  destruct (ingest_line_lookup m v2 k) as (? & Heq & Hb);
    rewrite Hm2 in Heq; injection Heq as <-.
  destruct (ingest_line_lookup m1 v2 k) as (? & Heq & Hc);
    rewrite Hm12 in Heq; injection Heq as <-.
  destruct (ingest_line_lookup m2 v1 k) as (? & Heq & Hd);
    rewrite Hm21 in Heq; injection Heq as <-.
  assert (Hdisjoint : ∀ j1 j2, k = window v1 j1 → k = window v2 j2 → False).
  { intros j1 j2 -> [= Hs Hd' _ _]. apply Hne. by rewrite Hs, Hd'. }
  destruct Ha as [(j1 & Hj1 & Hk1 & Ha)|[Ha1 Ha]].
  - destruct Hd as [(_ & _ & _ & Hd)|[Hd1 _]]; [|by destruct (Hd1 j1)].
    destruct Hc as [(j3 & _ & Hk3 & _)|[_ Hc]];
      [by destruct (Hdisjoint j1 j3)|].
    congruence.
  - destruct Hd as [(j4 & Hj4 & Hk4 & _)|[_ Hd]]; [by destruct (Ha1 j4)|].
    destruct Hb as [(j2 & Hj2 & Hk2 & Hb)|[Hb1 Hb]].
    + destruct Hc as [(_ & _ & _ & Hc)|[Hc1 _]]; [|by destruct (Hc1 j2)].
      congruence.
    + destruct Hc as [(j3 & Hj3 & Hk3 & _)|[_ Hc]]; [by destruct (Hb1 j3)|].
      congruence.
Qed.

(** X25: two neighbouring lines of the log that belong to different
    directed links can change places without changing the index that is
    built. *)
Theorem X25_lines_of_different_links_commute
    (before after : list util_line) (v1 v2 : util_line)
    (m : gmap bucket_key Qc) :
  (src v1, dst v1) ≠ (src v2, dst v2) →
  ingest (before ++ v1 :: v2 :: after) m
  = ingest (before ++ v2 :: v1 :: after) m.
Proof.
  intros Hne. rewrite !ingest_app.
  destruct (ingest before m) as [m0|e]; [simpl|done].
  pose proof (ingest_line_swap m0 v1 v2 Hne) as Hswap.
  destruct (ingest_line_spec m0 v1) as (m1 & Hm1 & _).
  destruct (ingest_line_spec m0 v2) as (m2 & Hm2 & _).
  rewrite Hm1, Hm2 in Hswap |- *. simpl in *. by rewrite Hswap.
Qed.

Lemma X25_lines_of_different_links_commute_witness :
  let ab := UtilLine 10 11 0 200000000 (Q2Qc (8 # 10)) in
  let ba := UtilLine 11 10 0 200000000 (Q2Qc (3 # 10)) in
  ingest [ab; ba] ∅ = ingest [ba; ab] ∅.
Proof.
  intros ab ba.
  apply (X25_lines_of_different_links_commute [] [] ab ba ∅). by vm_compute.
Defined.
